(** * Monte-Carlo pricing of an Asian barrier option: the three kernels

    A shallow embedding of the notebook of [cuda_processing_example]:
    [cpu_barrier_option], [cpu_multicore_barrier_option] and
    [numba_gpu_barrier_option], with the launch configuration of the
    device run.

    Numbers.  The kernels compute in floating point.  The embedding is
    generic in the numeric carrier: [FloatOps] lists the operations the
    source uses, and nothing else is assumed of them for the control
    flow, frame and safety results.  The results that compare values
    (the two spellings of the streaming mean, [max], a drift of zero)
    are stated over [ExactArith], the laws of exact arithmetic, so
    rounding is abstracted there.  [Qc] is an instance on which the
    kernels run inside Rocq, and [binary64_ops], over the primitive
    floats, is the IEEE carrier of the source, on which the effect of
    rounding is observed.

    Integers.  Path and step counts are Python integers, modelled by
    [Z]; indices stay below the length of a buffer wherever a read or
    write succeeds.

    Effects.  The two arrays live in a [world]; a kernel is a state
    transformer that may raise, and what it wrote before raising stays
    written.  An index without a position in its array raises
    [IndexError], as in Python.  The compiled kernels do not check
    their indices, and what they do with such an index is not defined:
    the embedding is the code's on the runs whose accesses are all in
    range, [every_access_is_in_bounds] gives the conditions under which
    they are, and the results on the values a run computes and stores
    assume these conditions.  The world also keeps a chronological
    log of array accesses and of the updates of the two loop-carried
    locals, which is what the temporal and coverage results speak of. *)

From Stdlib Require Import ZArith QArith Qcanon Ring Lia.
From Stdlib Require PrimFloat.
From stdpp Require Import base tactics option list list_numbers.

Local Open Scope Z_scope.

(** ** Numeric interface *)

Class FloatOps (F : Type) := {
  f0 : F;                       (* 0.0 *)
  f1 : F;                       (* 1.0 *)
  fadd : F → F → F;
  fsub : F → F → F;
  fmul : F → F → F;
  fdiv : F → F → F;
  fneg : F → F;
  fexp : F → F;                 (* math.exp *)
  fsqrt : F → F;                (* math.sqrt *)
  of_int : Z → F;               (* int -> float promotion *)
  fleb : F → F → bool;          (* a <= b *)
  fltb : F → F → bool           (* a < b *)
}.

(** Exact arithmetic: a commutative ring in which division is
    multiplication by the reciprocal, and [<] is translation invariant.
    No law constrains [fexp] or [fsqrt]. *)
Class ExactArith (F : Type) `{FloatOps F} := {
  exact_ring : ring_theory f0 f1 fadd fmul fsub fneg (@eq F);
  fdiv_recip : ∀ x y, fdiv x y = fmul x (fdiv f1 y);
  fdiv_1_r : ∀ x, fdiv x f1 = x;
  of_int_0 : of_int 0 = f0;
  fltb_sub : ∀ a b, fltb b a = fltb f0 (fsub a b)
}.

(** The larger of [a] and [b]: [a] when [b < a], and [b] otherwise. *)
Definition fmax {F} `{FloatOps F} (a b : F) : F := if fltb b a then a else b.

(** ** Exceptions and the state monad of the kernels *)

Inductive exn := ZeroDivisionError | IndexError.

Inductive result (A : Type) :=
| Ok (a : A)
| Raise (e : exn).
Arguments Ok {A} a.
Arguments Raise {A} e.

Inductive event (F : Type) :=
| EvLoad (idx : Z)                 (* d_normals[idx] is read *)
| EvPrice (i n : Z) (v : F)        (* s_curr of path i assigned at step n *)
| EvAvg (i n : Z) (v : F)          (* running_average of path i assigned at step n *)
| EvStore (i : Z) (v : F).         (* d_s[i] = v *)
Arguments EvLoad {F} idx.
Arguments EvPrice {F} i n v.
Arguments EvAvg {F} i n v.
Arguments EvStore {F} i v.

Record world (F : Type) := World {
  d_s : list F;
  d_normals : list F;
  log : list (event F)
}.
Arguments World {F} d_s d_normals log.
Arguments d_s {F} w.
Arguments d_normals {F} w.
Arguments log {F} w.

Definition M (F A : Type) : Type := world F → world F * result A.

Definition ret {F A} (a : A) : M F A := fun w => (w, Ok a).

Definition bind {F A B} (m : M F A) (k : A → M F B) : M F B :=
  fun w =>
    match m w with
    | (w', Ok a) => k a w'
    | (w', Raise e) => (w', Raise e)
    end.

Definition raise {F A} (e : exn) : M F A := fun w => (w, Raise e).

Notation "'let*' x ':=' m 'in' k" := (bind m (fun x => k))
  (at level 10, x name, m at level 100, k at level 200).
Notation "m ';;' k" := (bind m (fun _ => k))
  (at level 100, k at level 200, right associativity).

(** A statement-level [for x in xs: body x]. *)
Fixpoint for_ {F} (xs : list Z) (body : Z → M F unit) : M F unit :=
  match xs with
  | [] => ret tt
  | x :: xs' => body x;; for_ xs' body
  end.

(** ** Python built-ins used by the kernels *)

(** [range(stop)]. *)
Definition py_range (stop : Z) : list Z := seqZ 0 stop.

(** [range(start, stop, step)] for a positive step; its length is the
    one CPython computes, [(stop - start - 1) // step + 1] when
    [start < stop] and [0] otherwise.  A thread only exists when the
    grid is non-empty, and then its stride is positive. *)
Definition py_range3 (start stop step : Z) : list Z :=
  if (0 <? step) && (start <? stop)
  then (fun k => start + k * step) <$> seqZ 0 ((stop - start - 1) `div` step + 1)
  else [].

(** Position of index [i] in an array of length [len]: a negative index
    counts from the end, anything else out of range has no position. *)
Definition py_index (len : nat) (i : Z) : option nat :=
  if (0 <=? i) && (i <? Z.of_nat len) then Some (Z.to_nat i)
  else if (- Z.of_nat len <=? i) && (i <? 0) then Some (Z.to_nat (Z.of_nat len + i))
  else None.

Section Kernels.
Context {F : Type} `{FloatOps F}.

Definition emit (e : event F) : M F unit :=
  fun w => (World (d_s w) (d_normals w) (log w ++ [e]), Ok tt).

(** [a[i]] as a value, when [i] has a position in [a]. *)
Definition array_get (a : list F) (i : Z) : option F :=
  py_index (length a) i ≫= (a !!.).

(** [d_normals[idx]] *)
Definition load (idx : Z) : M F F :=
  emit (EvLoad idx);;
  fun w =>
    match array_get (d_normals w) idx with
    | Some v => (w, Ok v)
    | None => (w, Raise IndexError)
    end.

(** [d_s[i] = v] *)
Definition store (i : Z) (v : F) : M F unit :=
  emit (EvStore i v);;
  fun w =>
    match py_index (length (d_s w)) i with
    | Some k => (World (<[k := v]> (d_s w)) (d_normals w) (log w), Ok tt)
    | None => (w, Raise IndexError)
    end.

(** [x / n] for a float [x] and an integer [n], as the [njit]
    functions perform it: a zero divisor raises. *)
Definition true_div (x : F) (n : Z) : M F F :=
  if n =? 0 then raise ZeroDivisionError else ret (fdiv x (of_int n)).

(** *** Parameters *)

Record params := Params {
  T : F; K : F; B : F; S0 : F; sigma : F; mu : F; r : F;
  N_STEPS : Z; N_PATHS : Z
}.

(** The two loop-carried locals of a path. *)
Record locals := Locals { s_curr : F; running_average : F }.

(** *** The per-path loop *)

(** [running_average + 1.0/(n + 1.0) * (s_curr - running_average)],
    the CPU kernels' update.  The divisor [n + 1.0] is at least 1 for
    a step index, so the division cannot raise. *)
Definition cpu_average (n : Z) (s a : F) : F :=
  fadd a (fmul (fdiv f1 (fadd (of_int n) f1)) (fsub s a)).

(** [running_average += (s_curr - running_average) / (n + 1.0)], the
    device kernel's update. *)
Definition gpu_average (n : Z) (s a : F) : F :=
  fadd a (fdiv (fsub s a) (fadd (of_int n) f1)).

(** [s_curr += tmp1 * s_curr + sigma*s_curr*tmp3*d] *)
Definition advance (p : params) (tmp1 tmp3 : F) (s d : F) : F :=
  fadd s (fadd (fmul tmp1 s) (fmul (fmul (fmul (sigma p) s) tmp3) d)).

Section Path.
Variable average : Z → F → F → F.
Variable p : params.
Variables tmp1 tmp2 tmp3 : F.

(** One iteration of the inner loop, up to the barrier test. *)
Definition step (i n : Z) (st : locals) : M F locals :=
  let* d := load (i + n * N_PATHS p) in
  let s := advance p tmp1 tmp3 (s_curr st) d in
  emit (EvPrice i n s);;
  let a := average n s (running_average st) in
  emit (EvAvg i n a);;
  ret (Locals s a).

(** [for n in ns: ...; if running_average <= B: break] *)
Fixpoint steps_loop (i : Z) (ns : list Z) (st : locals) : M F locals :=
  match ns with
  | [] => ret st
  | n :: ns' =>
      let* st' := step i n st in
      if fleb (running_average st') (B p) then ret st'
      else steps_loop i ns' st'
  end.

(** [running_average - K if running_average > K else 0] *)
Definition payoff_of (a : F) : F :=
  if fltb (K p) a then fsub a (K p) else of_int 0.

(** The body of the loop over paths. *)
Definition path (i : Z) : M F unit :=
  let* st := steps_loop i (py_range (N_STEPS p)) (Locals (S0 p) f0) in
  let payoff := payoff_of (running_average st) in
  store i (fmul tmp2 payoff).
End Path.

(** *** Single-threaded kernel *)

Definition cpu_barrier_option (p : params) : M F unit :=
  let* tmp1 := true_div (fmul (mu p) (T p)) (N_STEPS p) in
  let tmp2 := fexp (fmul (fneg (r p)) (T p)) in
  let* q := true_div (T p) (N_STEPS p) in
  let tmp3 := fsqrt q in
  for_ (py_range (N_PATHS p)) (path cpu_average p tmp1 tmp2 tmp3).

(** *** Multi-threaded kernel

    [prange] hands the iterations of the outer loop to a pool of
    threads.  An iteration touches its own locals and the slot
    [d_s[i]] only, so a run is determined by the order in which the
    iterations take effect: [order], a rearrangement of
    [range(N_PATHS)] chosen by the scheduler. *)
Definition cpu_multicore_barrier_option (order : list Z) (p : params) : M F unit :=
  let* tmp1 := true_div (fmul (mu p) (T p)) (N_STEPS p) in
  let tmp2 := fexp (fmul (fneg (r p)) (T p)) in
  let* q := true_div (T p) (N_STEPS p) in
  let tmp3 := fsqrt q in
  for_ order (path cpu_average p tmp1 tmp2 tmp3).

(** *** Device kernel

    A launch creates [gridDim * blockDim] threads.  Thread [tx] of
    block [bx] runs the strided loop [range(ii, N_PATHS, stride)];
    the pool records, per thread in block-major order, the indices
    its loop has yet to visit.  The kernel is compiled without
    exception support: its divisions are the total [fdiv]. *)
Definition thread_range (gridDim blockDim N bx tx : Z) : list Z :=
  let ii := tx + bx * blockDim in
  let stride := gridDim * blockDim in
  py_range3 ii N stride.

Definition launch (gridDim blockDim N : Z) : list (list Z) :=
  bx ← seqZ 0 gridDim; tx ← seqZ 0 blockDim;
  [thread_range gridDim blockDim N bx tx].

(** [tmp1 = mu*T/N_STEPS], [tmp2 = math.exp(-r*T)] and
    [tmp3 = math.sqrt(T/N_STEPS)] as values. *)
Definition tmp1_of (p : params) : F := fdiv (fmul (mu p) (T p)) (of_int (N_STEPS p)).
Definition tmp2_of (p : params) : F := fexp (fmul (fneg (r p)) (T p)).
Definition tmp3_of (p : params) : F := fsqrt (fdiv (T p) (of_int (N_STEPS p))).

(** One iteration of a thread's outer loop. *)
Definition gpu_path (p : params) (i : Z) : M F unit :=
  let tmp1 := tmp1_of p in
  let tmp2 := tmp2_of p in
  let tmp3 := tmp3_of p in
  path gpu_average p tmp1 tmp2 tmp3 i.

(** The device interleaves the threads: [sched] names, one after the
    other, the thread that performs its next loop iteration.  A
    thread whose loop is over (or an id outside the grid) has
    nothing to do. *)
Fixpoint gpu_run (p : params) (sched : list nat) (pool : list (list Z))
  : M F (list (list Z)) :=
  match sched with
  | [] => ret pool
  | t :: sched' =>
      match pool !! t with
      | Some (i :: rest) => gpu_path p i;; gpu_run p sched' (<[t := rest]> pool)
      | _ => gpu_run p sched' pool
      end
  end.

Definition numba_gpu_barrier_option (gridDim blockDim : Z) (sched : list nat)
    (p : params) : M F (list (list Z)) :=
  gpu_run p sched (launch gridDim blockDim (N_PATHS p)).

(** [cuda.synchronize()] returns once every thread has left its loop. *)
Definition finished (pool : list (list Z)) : Prop := Forall (λ todo, todo = []) pool.

(** [number_of_blocks = (N_PATHS-1) // number_of_threads + 1] *)
Definition number_of_blocks (n_paths number_of_threads : Z) : Z :=
  (n_paths - 1) `div` number_of_threads + 1.

End Kernels.

(** ** Runs of the per-path loop *)

Section Runs.
Context {F : Type} `{FloatOps F}.

(** The world after more events were logged. *)
Definition logged (w : world F) (evs : list (event F)) : world F :=
  World (d_s w) (d_normals w) (log w ++ evs).

Lemma logged_nil w : logged w [] = w.
Proof. destruct w. unfold logged. simpl. by rewrite app_nil_r. Qed.


Lemma py_index_in_range (len : nat) (i : Z) :
  0 ≤ i < Z.of_nat len → py_index len i = Some (Z.to_nat i).
Proof.
  intros Hi. unfold py_index.
  destruct (0 <=? i) eqn:E1; [|lia]. destruct (i <? Z.of_nat len) eqn:E2; [done|lia].
Qed.


Lemma array_get_in_range (a : list F) (i : Z) :
  0 ≤ i < Z.of_nat (length a) → array_get a i = a !! Z.to_nat i ∧ is_Some (a !! Z.to_nat i).
Proof.
  intros Hi. unfold array_get. rewrite py_index_in_range by done. simpl.
  split; [done|]. apply lookup_lt_is_Some. lia.
Qed.

Section Loop.
Variable average : Z → F → F → F.
Variable p : params (F:=F).
Variables tmp1 tmp2 tmp3 : F.

(** The iterations the inner loop of path [i] performs over the steps
    [ns] from the locals [st], with the locals after each one: the
    loop stops after the first iteration whose average is at or
    below the barrier. *)
Fixpoint history (ds : list F) (i : Z) (ns : list Z) (st : locals)
  : list (Z * locals (F:=F)) :=
  match ns with
  | [] => []
  | n :: ns' =>
      match array_get ds (i + n * N_PATHS p) with
      | None => []
      | Some d =>
          let s := advance p tmp1 tmp3 (s_curr st) d in
          let a := average n s (running_average st) in
          (n, Locals s a) ::
            if fleb a (B p) then [] else history ds i ns' (Locals s a)
      end
  end.

(** What one iteration logs. *)
Definition iter_events (i : Z) (it : Z * locals (F:=F)) : list (event F) :=
  [EvLoad (i + it.1 * N_PATHS p);
   EvPrice i it.1 (s_curr it.2);
   EvAvg i it.1 (running_average it.2)].

(** The locals when the loop is left. *)
Definition final (st : locals (F:=F)) (h : list (Z * locals (F:=F))) : locals :=
  default st (last (h.*2)).

Lemma final_cons st it h : final st (it :: h) = final it.2 h.
Proof.
  unfold final. destruct h as [|it' h]; [done|].
  rewrite !fmap_cons, last_cons.
  by destruct (last (it'.2 :: h.*2)).
Qed.

Lemma steps_loop_run i ns st w :
  (∀ n, n ∈ ns → 0 ≤ i + n * N_PATHS p < Z.of_nat (length (d_normals w))) →
  let h := history (d_normals w) i ns st in
  steps_loop average p tmp1 tmp3 i ns st w
  = (logged w (h ≫= iter_events i), Ok (final st h)).
Proof.
  revert st w. induction ns as [|n ns IH]; intros st w Hin; simpl.
  - unfold ret. by rewrite logged_nil.
  - destruct (array_get_in_range (d_normals w) (i + n * N_PATHS p)) as [Hget [d Hd]].
    { apply Hin. left. }
    rewrite Hget, Hd. unfold bind at 1. unfold step, bind at 1, load, bind at 1, emit.
    simpl. rewrite Hget, Hd. simpl.
    set (s := advance p tmp1 tmp3 (s_curr st) d).
    set (a := average n s (running_average st)).
    destruct (fleb a (B p)) eqn:Hb.
    + unfold ret. simpl. unfold logged. simpl.
      rewrite <- !app_assoc. simpl. done.
    + rewrite IH.
      2:{ intros n' Hn'. simpl. apply Hin. by right. }
      simpl. rewrite final_cons. simpl. f_equal. unfold logged. simpl.
      f_equal. rewrite <- !app_assoc. done.
Qed.

(** The value a path stores and the events it logs. *)
Definition path_history (ds : list F) (i : Z) : list (Z * locals (F:=F)) :=
  history ds i (py_range (N_STEPS p)) (Locals (S0 p) f0).

Definition path_value (ds : list F) (i : Z) : F :=
  fmul tmp2 (payoff_of p (running_average (final (Locals (S0 p) f0) (path_history ds i)))).

Definition path_events (ds : list F) (i : Z) : list (event F) :=
  (path_history ds i ≫= iter_events i) ++ [EvStore i (path_value ds i)].

(** A world whose buffers hold the draws of every path and step and
    a slot per path. *)
Definition buffers_fit (w : world F) : Prop :=
  N_PATHS p * N_STEPS p ≤ Z.of_nat (length (d_normals w))
  ∧ N_PATHS p ≤ Z.of_nat (length (d_s w)).

Lemma draw_index_in_range w i n :
  buffers_fit w → 0 ≤ i < N_PATHS p → 0 ≤ n < N_STEPS p →
  0 ≤ i + n * N_PATHS p < Z.of_nat (length (d_normals w)).
Proof. intros [Hd _] Hi Hn. nia. Qed.

Lemma path_run i w :
  buffers_fit w → 0 ≤ i < N_PATHS p →
  path average p tmp1 tmp2 tmp3 i w
  = (World (<[Z.to_nat i := path_value (d_normals w) i]> (d_s w)) (d_normals w)
           (log w ++ path_events (d_normals w) i), Ok tt).
Proof.
  intros Hfit Hi. unfold path, bind at 1.
  rewrite steps_loop_run.
  2:{ intros n Hn. apply elem_of_seqZ in Hn. apply draw_index_in_range; [done|done|lia]. }
  unfold store, bind, emit. simpl.
  rewrite py_index_in_range by (destruct Hfit; lia).
  unfold path_events, path_value, path_history. by rewrite <- app_assoc.
Qed.
End Loop.
End Runs.

(** ** Runs of the loops over paths *)

Section Paths.
Context {F : Type} `{FloatOps F}.

(** The output buffer after the slots [js] were assigned in turn. *)
Definition stored (value : Z → F) (js : list Z) (a : list F) : list F :=
  foldl (λ acc i, <[Z.to_nat i := value i]> acc) a js.

Lemma length_stored value js a : length (stored value js a) = length a.
Proof.
  revert a. induction js as [|i js IH]; intros a; simpl; [done|].
  unfold stored in *. simpl. by rewrite IH, length_insert.
Qed.

Lemma stored_lookup value js a (j : nat) :
  Forall (λ i, 0 ≤ i) js →
  stored value js a !! j
  = if decide (Z.of_nat j ∈ js ∧ (j < length a)%nat)
    then Some (value (Z.of_nat j)) else a !! j.
Proof.
  intros Hpos. revert a. induction Hpos as [|i js Hi Hpos IH]; intros a.
  - reflexivity.
  - unfold stored in *. simpl. rewrite IH, length_insert.
    destruct (decide (Z.of_nat j ∈ js ∧ (j < length a)%nat)) as [[Hin Hlt]|Hnot].
    + rewrite decide_True; [done|]. split; [by right|done].
    + destruct (decide (Z.of_nat j = i)) as [<-|Hne].
      * rewrite Nat2Z.id. destruct (decide (j < length a)%nat) as [Hlt|Hge].
        -- rewrite list_lookup_insert_eq by done.
           rewrite decide_True; [done|]. split; [left|done].
        -- rewrite list_insert_ge by lia. rewrite decide_False; [done|]. tauto.
      * rewrite list_lookup_insert_ne by lia.
        rewrite decide_False; [done|]. intros [Hin Hlt]. apply Hnot.
        split; [|done]. apply elem_of_cons in Hin as [?|?]; [done|done].
Qed.

(** The result depends on which slots are assigned, not on the order. *)
Lemma stored_same_slots value js1 js2 a :
  Forall (λ i, 0 ≤ i) js1 → Forall (λ i, 0 ≤ i) js2 →
  (∀ i, i ∈ js1 ↔ i ∈ js2) →
  stored value js1 a = stored value js2 a.
Proof.
  intros H1 H2 Hsame. apply list_eq. intros j.
  rewrite !stored_lookup by done.
  destruct (decide (Z.of_nat j ∈ js1 ∧ (j < length a)%nat)) as [[Hin Hlt]|Hnot].
  - rewrite decide_True; [done|]. split; [by apply Hsame|done].
  - rewrite decide_False; [done|]. intros [Hin Hlt]. apply Hnot.
    split; [by apply Hsame|done].
Qed.

Section Loop.
Variable average : Z → F → F → F.
Variable p : params (F:=F).
Variables tmp1 tmp2 tmp3 : F.

Lemma for_paths_run js w :
  buffers_fit p w → Forall (λ i, 0 ≤ i < N_PATHS p) js →
  for_ js (path average p tmp1 tmp2 tmp3) w
  = (World (stored (path_value average p tmp1 tmp2 tmp3 (d_normals w)) js (d_s w))
           (d_normals w)
           (log w ++ (js ≫= path_events average p tmp1 tmp2 tmp3 (d_normals w))),
     Ok tt).
Proof.
  intros Hfit Hjs. revert w Hfit.
  induction Hjs as [|i js Hi Hjs IH]; intros w Hfit; simpl.
  - unfold ret. destruct w. simpl. by rewrite app_nil_r.
  - unfold bind. rewrite path_run by done. rewrite IH.
    + simpl. by rewrite <- app_assoc.
    + destruct Hfit as [Hn Hs]. split; simpl; [done|]. by rewrite length_insert.
Qed.
End Loop.

(** *** The device schedule *)

(** The path indices a schedule makes the threads visit, in the order
    of the visits, and the pool it leaves. *)
Fixpoint drain (sched : list nat) (pool : list (list Z)) : list Z * list (list Z) :=
  match sched with
  | [] => ([], pool)
  | t :: sched' =>
      match pool !! t with
      | Some (i :: rest) =>
          let d := drain sched' (<[t := rest]> pool) in (i :: d.1, d.2)
      | _ => drain sched' pool
      end
  end.

Lemma gpu_run_drain (p : params) sched pool w :
  gpu_run p sched pool w
  = (for_ (drain sched pool).1 (gpu_path p);; ret (drain sched pool).2) w.
Proof.
  revert pool w. induction sched as [|t sched IH]; intros pool w; simpl; [done|].
  destruct (pool !! t) as [[|i rest]|] eqn:Ht; [apply IH| |apply IH].
  cbn [fst snd for_]. unfold bind.
  destruct (gpu_path p i w) as [w' [[]|e]]; [|done].
  rewrite IH. done.
Qed.

Lemma join_insert_tail (pool : list (list Z)) t i rest :
  pool !! t = Some (i :: rest) →
  mjoin pool ≡ₚ i :: mjoin (<[t := rest]> pool).
Proof.
  revert t. induction pool as [|todo pool IH]; intros [|t] Ht; simpl in *; try done.
  - by injection Ht as ->.
  - rewrite (IH _ Ht). by rewrite Permutation_middle.
Qed.

Lemma drain_perm sched pool :
  (drain sched pool).1 ++ mjoin (drain sched pool).2 ≡ₚ mjoin pool.
Proof.
  revert pool. induction sched as [|t sched IH]; intros pool; simpl; [done|].
  destruct (pool !! t) as [[|i rest]|] eqn:Ht; [apply IH| |apply IH].
  simpl. rewrite IH. symmetry. by apply join_insert_tail.
Qed.

Lemma drain_finished sched pool :
  finished (drain sched pool).2 → (drain sched pool).1 ≡ₚ mjoin pool.
Proof.
  intros Hfin. rewrite <- (drain_perm sched pool).
  rewrite (join_nil_2 _ Hfin). by rewrite app_nil_r.
Qed.

(** Every pool can be run to completion. *)
Lemma complete_schedule_exists pool : ∃ sched, finished (drain sched pool).2.
Proof.
  remember (length (mjoin pool)) as k eqn:Hk. revert pool Hk.
  induction k as [|k IH]; intros pool Hk.
  - exists []. simpl. apply join_nil_1. by apply nil_length_inv.
  - assert (Hex : ∃ t i rest, pool !! t = Some (i :: rest)).
    { destruct (decide (finished pool)) as [Hf|Hnf].
      - rewrite (join_nil_2 _ Hf) in Hk. done.
      - apply not_Forall_Exists in Hnf; [|intros ?; apply _].
        apply Exists_exists in Hnf as (todo & Hin & Hne).
        apply list_elem_of_lookup in Hin as [t Ht].
        destruct todo as [|i rest]; [by destruct Hne|]. eauto. }
    destruct Hex as (t & i & rest & Ht).
    destruct (IH (<[t := rest]> pool)) as [sched Hs].
    { pose proof (join_insert_tail _ _ _ _ Ht) as Hp.
      apply Permutation_length in Hp. simpl in Hp. lia. }
    exists (t :: sched). simpl. by rewrite Ht.
Qed.
End Paths.

(** ** The strided loops of a launch *)

Section Strides.

Lemma mod_of_stride_member (y c U : Z) :
  0 ≤ c < U → (y - c) `mod` U = 0 → y `mod` U = c.
Proof.
  intros Hc Hm.
  assert (HU : U ≠ 0) by lia.
  pose proof (Z.div_mod (y - c) U HU) as Hdm. rewrite Hm in Hdm.
  replace y with (c + (y - c) `div` U * U) by lia.
  rewrite Z.mod_add by done. by apply Z.mod_small.
Qed.

Lemma elem_of_py_range3 (start stop step x : Z) :
  0 < step →
  x ∈ py_range3 start stop step ↔ start ≤ x < stop ∧ (x - start) `mod` step = 0.
Proof.
  intros Hstep. unfold py_range3.
  destruct (0 <? step) eqn:E0; [|lia]. destruct (start <? stop) eqn:E1; simpl.
  - rewrite list_elem_of_fmap. split.
    + intros (k & -> & Hk). apply elem_of_seqZ in Hk.
      assert (k ≤ (stop - start - 1) `div` step) as Hle by lia.
      assert (k * step ≤ stop - start - 1).
      { etrans; [apply Z.mul_le_mono_nonneg_r; [lia|exact Hle]|].
        rewrite Z.mul_comm. apply Z.mul_div_le. lia. }
      split; [nia|].
      replace (start + k * step - start) with (k * step) by lia.
      apply Z.mod_mul. lia.
    + intros [Hx Hm].
      assert (Hs : step ≠ 0) by lia.
      pose proof (Z.div_mod (x - start) step Hs) as Hdm. rewrite Hm in Hdm.
      exists ((x - start) `div` step). split; [lia|].
      apply elem_of_seqZ.
      assert (0 ≤ (x - start) `div` step) by (apply Z.div_pos; lia).
      assert ((x - start) `div` step ≤ (stop - start - 1) `div` step)
        by (apply Z.div_le_mono; lia).
      lia.
  - split; [intros Hx; by apply elem_of_nil in Hx|]. lia.
Qed.

Lemma NoDup_py_range3 (start stop step : Z) : NoDup (py_range3 start stop step).
Proof.
  unfold py_range3.
  destruct (0 <? step) eqn:E0; simpl; [|constructor].
  destruct (start <? stop); [|constructor].
  apply NoDup_fmap_2_strong; [|apply NoDup_seqZ].
  intros k1 k2 _ _ Heq. nia.
Qed.

Lemma length_py_range3 (start stop step : Z) :
  0 < step → 0 ≤ start →
  Z.of_nat (length (py_range3 start stop step))
  = if start <? stop then (stop - start - 1) `div` step + 1 else 0.
Proof.
  intros Hstep Hstart. unfold py_range3.
  destruct (0 <? step) eqn:E0; [|lia]. destruct (start <? stop) eqn:E1; simpl; [|done].
  rewrite length_fmap, length_seqZ.
  assert (0 ≤ (stop - start - 1) `div` step) by (apply Z.div_pos; lia).
  lia.
Qed.

(** A thread of a grid of [U] units visits the floor or the ceiling of
    [N / U] paths. *)
Lemma stride_count (ii N U : Z) :
  0 ≤ N → 0 ≤ ii < U →
  let len := Z.of_nat (length (py_range3 ii N U)) in
  len = N `div` U ∨ len = (N + U - 1) `div` U.
Proof.
  intros HN Hii. simpl. rewrite length_py_range3 by lia.
  assert (HU : U ≠ 0) by lia.
  pose proof (Z.div_mod N U HU) as HdN.
  pose proof (Z.mod_pos_bound N U ltac:(lia)) as HmN.
  set (qN := N `div` U) in *. set (rN := N `mod` U) in *.
  destruct (ii <? N) eqn:E.
  - destruct (decide (ii < rN)) as [Hlt|Hge].
    + right.
      replace (N - ii - 1) with ((rN - ii - 1) + qN * U) by lia.
      rewrite Z.div_add by done. rewrite Z.div_small by lia.
      replace (N + U - 1) with ((rN - 1) + (qN + 1) * U) by lia.
      rewrite Z.div_add by done. rewrite Z.div_small by lia. lia.
    + left.
      replace (N - ii - 1) with ((U + rN - ii - 1) + (qN - 1) * U) by lia.
      rewrite Z.div_add by done. rewrite Z.div_small by lia. lia.
  - left. assert (N < U) by lia.
    assert (qN = 0) as -> by (apply Z.div_small; lia). done.
Qed.

Lemma join_bind_list {A B} (l : list A) (g : A → list (list B)) :
  mjoin (l ≫= g) = l ≫= (λ x, mjoin (g x)).
Proof.
  induction l as [|x l IH]; [done|]. rewrite !bind_cons.
  rewrite <- IH. clear IH. induction (g x) as [|y ys IHy]; simpl; [done|].
  by rewrite IHy, app_assoc.
Qed.

Lemma join_launch (gridDim blockDim N : Z) :
  mjoin (launch gridDim blockDim N)
  = seqZ 0 gridDim ≫= λ bx, seqZ 0 blockDim ≫= λ tx,
      thread_range gridDim blockDim N bx tx.
Proof.
  unfold launch. rewrite join_bind_list. apply list_bind_ext; [|done].
  intros bx. rewrite join_bind_list. apply list_bind_ext; [|done].
  intros tx. simpl. by rewrite app_nil_r.
Qed.

Lemma elem_of_launch (gridDim blockDim N : Z) (todo : list Z) :
  todo ∈ launch gridDim blockDim N ↔
  ∃ bx tx, 0 ≤ bx < gridDim ∧ 0 ≤ tx < blockDim
           ∧ todo = thread_range gridDim blockDim N bx tx.
Proof.
  unfold launch. rewrite list_elem_of_bind. split.
  - intros (bx & Hin & Hbx). apply list_elem_of_bind in Hin as (tx & Hin & Htx).
    apply list_elem_of_singleton in Hin. apply elem_of_seqZ in Hbx, Htx.
    exists bx, tx. split_and!; [lia|lia|lia|lia|done].
  - intros (bx & tx & Hbx & Htx & ->). exists bx. split; [|apply elem_of_seqZ; lia].
    apply list_elem_of_bind. exists tx. split; [|apply elem_of_seqZ; lia].
    by apply list_elem_of_singleton.
Qed.

Lemma thread_index_bounds (gridDim blockDim bx tx : Z) :
  0 ≤ bx < gridDim → 0 ≤ tx < blockDim →
  0 ≤ tx + bx * blockDim < gridDim * blockDim.
Proof. intros Hbx Htx. nia. Qed.

Lemma elem_of_join_launch (gridDim blockDim N x : Z) :
  x ∈ mjoin (launch gridDim blockDim N) ↔
  ∃ bx tx, 0 ≤ bx < gridDim ∧ 0 ≤ tx < blockDim
           ∧ x ∈ thread_range gridDim blockDim N bx tx.
Proof.
  rewrite list_elem_of_join. setoid_rewrite elem_of_launch. split.
  - intros (todo & Hx & bx & tx & Hbx & Htx & ->). eauto 6.
  - intros (bx & tx & Hbx & Htx & Hx). eauto 8.
Qed.

(** The strided loops of a non-empty grid visit every path once. *)
Lemma strided_cover (gridDim blockDim N : Z) :
  1 ≤ gridDim → 1 ≤ blockDim →
  mjoin (launch gridDim blockDim N) ≡ₚ py_range N.
Proof.
  intros Hg Hb.
  assert (HU : 0 < gridDim * blockDim) by nia.
  apply NoDup_Permutation.
  - rewrite join_launch. apply NoDup_bind; [| |apply NoDup_seqZ].
    + intros bx1 bx2 y Hbx1 Hbx2 Hy1 Hy2.
      apply elem_of_seqZ in Hbx1, Hbx2.
      apply list_elem_of_bind in Hy1 as (tx1 & Hy1 & Htx1).
      apply list_elem_of_bind in Hy2 as (tx2 & Hy2 & Htx2).
      apply elem_of_seqZ in Htx1, Htx2.
      apply elem_of_py_range3 in Hy1 as [_ Hm1]; [|done].
      apply elem_of_py_range3 in Hy2 as [_ Hm2]; [|done].
      apply mod_of_stride_member in Hm1; [|apply thread_index_bounds; lia].
      apply mod_of_stride_member in Hm2; [|apply thread_index_bounds; lia].
      nia.
    + intros bx Hbx. apply elem_of_seqZ in Hbx.
      apply NoDup_bind; [| |apply NoDup_seqZ].
      * intros tx1 tx2 y Htx1 Htx2 Hy1 Hy2.
        apply elem_of_seqZ in Htx1, Htx2.
        apply elem_of_py_range3 in Hy1 as [_ Hm1]; [|done].
        apply elem_of_py_range3 in Hy2 as [_ Hm2]; [|done].
        apply mod_of_stride_member in Hm1; [|apply thread_index_bounds; lia].
        apply mod_of_stride_member in Hm2; [|apply thread_index_bounds; lia].
        lia.
      * intros tx _. apply NoDup_py_range3.
  - apply NoDup_seqZ.
  - intros x. rewrite elem_of_join_launch. unfold py_range. rewrite elem_of_seqZ. split.
    + intros (bx & tx & Hbx & Htx & Hx).
      apply elem_of_py_range3 in Hx as [Hx _]; [|done].
      pose proof (thread_index_bounds gridDim blockDim bx tx Hbx Htx). lia.
    + intros Hx.
      set (ii := x `mod` (gridDim * blockDim)).
      assert (0 ≤ ii < gridDim * blockDim) as Hii by (apply Z.mod_pos_bound; lia).
      exists (ii `div` blockDim), (ii `mod` blockDim).
      assert (0 ≤ ii `mod` blockDim < blockDim) by (apply Z.mod_pos_bound; lia).
      assert (0 ≤ ii `div` blockDim) by (apply Z.div_pos; lia).
      assert (ii `div` blockDim < gridDim).
      { apply Z.div_lt_upper_bound; lia. }
      assert (ii `mod` blockDim + ii `div` blockDim * blockDim = ii) as Heq.
      { pose proof (Z.div_mod ii blockDim ltac:(lia)). lia. }
      split_and!; [lia|done|lia|lia|].
      unfold thread_range. rewrite Heq. apply elem_of_py_range3; [done|].
      pose proof (Z.div_mod x (gridDim * blockDim) ltac:(lia)) as Hdm.
      fold ii in Hdm.
      assert (0 ≤ x `div` (gridDim * blockDim)) by (apply Z.div_pos; lia).
      split; [nia|].
      replace (x - ii) with (x `div` (gridDim * blockDim) * (gridDim * blockDim)) by lia.
      apply Z.mod_mul. lia.
Qed.

(** The notebook's launch has at least one block, and at least as
    many threads as there are paths. *)
Lemma number_of_blocks_bounds (n_paths threads : Z) :
  1 ≤ n_paths → 1 ≤ threads →
  1 ≤ number_of_blocks n_paths threads
  ∧ n_paths ≤ number_of_blocks n_paths threads * threads.
Proof.
  intros Hn Ht. unfold number_of_blocks.
  assert (0 ≤ (n_paths - 1) `div` threads) by (apply Z.div_pos; lia).
  split; [lia|].
  pose proof (Z.div_mod (n_paths - 1) threads ltac:(lia)).
  pose proof (Z.mod_pos_bound (n_paths - 1) threads ltac:(lia)). nia.
Qed.
End Strides.

(** ** Properties of the iterations of a path *)

Section History.
Context {F : Type} `{FloatOps F}.
Variable average : Z → F → F → F.
Variable p : params (F:=F).
Variables tmp1 tmp3 : F.

(** The locals an iteration starts from: those the previous iteration
    left, or the initial ones. *)
Definition before (st : locals (F:=F)) (h : list (Z * locals (F:=F))) (k : nat) : locals :=
  match k with
  | O => st
  | S k' => default st (snd <$> h !! k')
  end.

Lemma history_lookup ds i ns st (k : nat) n st' :
  history average p tmp1 tmp3 ds i ns st !! k = Some (n, st') →
  let h := history average p tmp1 tmp3 ds i ns st in
  let prev := before st h k in
  ns !! k = Some n
  ∧ (∃ d, array_get ds (i + n * N_PATHS p) = Some d
       ∧ s_curr st' = advance p tmp1 tmp3 (s_curr prev) d
       ∧ running_average st' = average n (s_curr st') (running_average prev))
  ∧ ((S k < length h)%nat → fleb (running_average st') (B p) = false).
Proof.
  revert st k n st'. induction ns as [|n0 ns IH]; intros st k n st'; simpl; [done|].
  destruct (array_get ds (i + n0 * N_PATHS p)) as [d|] eqn:Hd; [|done].
  set (s := advance p tmp1 tmp3 (s_curr st) d).
  set (a := average n0 s (running_average st)).
  destruct k as [|k]; simpl.
  - intros [= <- <-]. split; [done|]. split; [by exists d|].
    simpl. destruct (fleb a (B p)); simpl; [lia|done].
  - destruct (fleb a (B p)) eqn:Hb; [done|].
    intros Hk. destruct (IH _ _ _ _ Hk) as (Hn & (d' & Hd' & Hs & Ha) & Hlast).
    split; [done|]. split.
    + exists d'. split; [done|]. destruct k as [|k]; simpl in *; [done|].
      destruct (history average p tmp1 tmp3 ds i ns (Locals s a) !! k) eqn:Ek; [done|].
      apply lookup_lt_Some in Hk. apply lookup_ge_None in Ek. lia.
    + intros Hlt. apply Hlast. lia.
Qed.

Lemma history_length ds i ns st :
  (length (history average p tmp1 tmp3 ds i ns st) ≤ length ns)%nat.
Proof.
  revert st. induction ns as [|n ns IH]; intros st; simpl; [done|].
  destruct (array_get ds (i + n * N_PATHS p)); simpl; [|lia].
  destruct (fleb _ _); simpl; [lia|]. specialize (IH (Locals (advance p tmp1 tmp3 (s_curr st) f)
    (average n (advance p tmp1 tmp3 (s_curr st) f) (running_average st)))). lia.
Qed.


(** The averages a run of iterations logs, in order. *)
Definition averages_of (evs : list (event F)) : list F :=
  omap (λ e, match e with EvAvg _ _ v => Some v | _ => None end) evs.


(** The slots a log records a store to, in order. *)
Definition stored_slots (evs : list (event F)) : list Z :=
  omap (λ e, match e with EvStore i _ => Some i | _ => None end) evs.

Lemma averages_of_iterations i (h : list (Z * locals (F:=F))) :
  averages_of (h ≫= iter_events p i) = (λ it, running_average it.2) <$> h.
Proof. induction h as [|it h IH]; [done|]. by rewrite bind_cons, fmap_cons, <- IH. Qed.

Lemma stored_slots_iterations i (h : list (Z * locals (F:=F))) :
  stored_slots (h ≫= iter_events p i) = [].
Proof. induction h as [|it h IH]; [done|]. rewrite bind_cons. simpl. exact IH. Qed.


(** After the iteration that breaches the barrier nothing more is
    logged. *)
Lemma breach_is_last i (h : list (Z * locals (F:=F))) (k : nat) n v :
  (∀ (j : nat) it, h !! j = Some it → (S j < length h)%nat →
                   fleb (running_average it.2) (B p) = false) →
  (h ≫= iter_events p i) !! k = Some (EvAvg i n v) →
  fleb v (B p) = true →
  S k = length (h ≫= iter_events p i).
Proof.
  revert k. induction h as [|it h IH]; intros k Hh Hk Hb; [done|].
  rewrite bind_cons in *. simpl in *.
  destruct k as [|[|[|k]]]; simpl in *; [done|done| |].
  - injection Hk as <- <-. destruct h as [|it' h]; [done|].
    rewrite (Hh 0%nat it) in Hb; [done|done|simpl; lia].
  - f_equal. f_equal. f_equal. apply IH; [|done|done].
    intros j it' Hj Hlt. apply (Hh (S j)); [done|lia].
Qed.
End History.

(** ** Frame and log lemmas that hold of every run *)

Section Frames.
Context {F : Type} `{FloatOps F}.






Lemma cpu_barrier_option_unfold (p : params) w :
  N_STEPS p ≠ 0 →
  cpu_barrier_option p w
  = for_ (py_range (N_PATHS p))
         (path cpu_average p (tmp1_of p) (tmp2_of p) (tmp3_of p)) w.
Proof.
  intros Hn. unfold cpu_barrier_option, true_div.
  destruct (N_STEPS p =? 0) eqn:E; [lia|]. reflexivity.
Qed.

Lemma cpu_multicore_barrier_option_unfold order (p : params) w :
  N_STEPS p ≠ 0 →
  cpu_multicore_barrier_option order p w
  = for_ order (path cpu_average p (tmp1_of p) (tmp2_of p) (tmp3_of p)) w.
Proof.
  intros Hn. unfold cpu_multicore_barrier_option, true_div.
  destruct (N_STEPS p =? 0) eqn:E; [lia|]. reflexivity.
Qed.

Lemma cpu_barrier_option_zero_steps (p : params) w :
  N_STEPS p = 0 → cpu_barrier_option p w = (w, Raise ZeroDivisionError).
Proof. intros Hn. unfold cpu_barrier_option, true_div. by rewrite Hn. Qed.


Section Loop.
Variable average : Z → F → F → F.
Variable p : params (F:=F).
Variables tmp1 tmp2 tmp3 : F.



End Loop.

Lemma launch_members (gridDim blockDim N x : Z) :
  x ∈ mjoin (launch gridDim blockDim N) → 0 ≤ x < N.
Proof.
  intros (bx & tx & Hbx & Htx & Hx)%elem_of_join_launch.
  apply elem_of_py_range3 in Hx as [Hx _]; [|nia].
  pose proof (thread_index_bounds gridDim blockDim bx tx Hbx Htx). lia.
Qed.

Lemma drain_members sched pool x :
  x ∈ (drain sched pool).1 → x ∈ mjoin pool.
Proof.
  intros Hx. rewrite <- (drain_perm sched pool). apply elem_of_app. by left.
Qed.

Lemma drain_launch_in_range sched (gridDim blockDim N : Z) :
  Forall (λ i, 0 ≤ i < N) (drain sched (launch gridDim blockDim N)).1.
Proof.
  apply Forall_forall. intros x Hx. by apply drain_members, launch_members in Hx.
Qed.


(** What an access of the log must satisfy to be within the buffers
    of [w]. *)
Definition access_in_bounds (w : world F) (e : event F) : Prop :=
  match e with
  | EvLoad idx => 0 ≤ idx < Z.of_nat (length (d_normals w))
  | EvStore i _ => 0 ≤ i < Z.of_nat (length (d_s w))
  | _ => True
  end.

Lemma path_events_in_bounds average (p : params) tmp1 tmp2 tmp3 w i :
  buffers_fit p w → 0 ≤ i < N_PATHS p →
  Forall (access_in_bounds w) (path_events average p tmp1 tmp2 tmp3 (d_normals w) i).
Proof.
  intros Hfit Hi. unfold path_events. apply Forall_app. split.
  - apply Forall_bind, Forall_forall. intros [n st] Hin.
    apply list_elem_of_lookup in Hin as [k Hk].
    apply history_lookup in Hk as (Hn & _ & _).
    apply list_elem_of_lookup_2, elem_of_seqZ in Hn.
    unfold iter_events. simpl.
    constructor; [simpl; apply draw_index_in_range; [done|done|lia]|].
    constructor; [done|]. constructor; [done|]. constructor.
  - constructor; [|constructor]. simpl. destruct Hfit. lia.
Qed.

Lemma stored_slots_paths average (p : params) tmp1 tmp2 tmp3 ds js :
  stored_slots (js ≫= path_events average p tmp1 tmp2 tmp3 ds) = js.
Proof.
  induction js as [|i js IH]; [done|]. rewrite bind_cons.
  unfold stored_slots in *. rewrite omap_app, IH. unfold path_events.
  rewrite omap_app. fold (stored_slots (path_history average p tmp1 tmp3 ds i ≫= iter_events p i)).
  by rewrite stored_slots_iterations.
Qed.

(** What the body of the loop over paths logs for path [i] when its
    inner loop performs the iterations [h] and the value [v] is then
    stored: for each iteration the read of the draw, the new price and
    the new average, in that order, and one store after the last of
    them. *)
Definition path_segment (p : params) (i : Z) (h : list (Z * locals (F:=F))) (v : F)
  : list (event F) :=
  (h ≫= iter_events p i) ++ [EvStore i v].

(** A store the paths [js] log is the store of one of them. *)
Lemma store_of_paths average (p : params) tmp1 tmp2 tmp3 ds js i v :
  EvStore i v ∈ (js ≫= path_events average p tmp1 tmp2 tmp3 ds) →
  i ∈ js ∧ v = path_value average p tmp1 tmp2 tmp3 ds i.
Proof.
  intros (j & He & Hj)%list_elem_of_bind. unfold path_events in He.
  apply elem_of_app in He as [He|He].
  - apply list_elem_of_bind in He as (it & He & _). unfold iter_events in He.
    repeat (apply elem_of_cons in He as [He|He]; [discriminate He|]).
    by apply elem_of_nil in He.
  - apply list_elem_of_singleton in He. injection He as -> ->. done.
Qed.

Lemma stored_slot (value : Z → F) js a i :
  Forall (λ i, 0 ≤ i) js → i ∈ js → i < Z.of_nat (length a) →
  stored value js a !! Z.to_nat i = Some (value i).
Proof.
  intros Hpos Hin Hlt.
  assert (0 ≤ i) by (by apply (proj1 (Forall_forall _ _) Hpos)).
  rewrite stored_lookup by done. rewrite Z2Nat.id by done.
  rewrite decide_True; [done|]. split; [done|lia].
Qed.

(** The run of the single-threaded kernel, set-up included, on buffers
    that hold every draw and slot. *)
Lemma cpu_barrier_option_run (p : params) w :
  1 ≤ N_STEPS p → buffers_fit p w →
  cpu_barrier_option p w
  = (World (stored (path_value cpu_average p (tmp1_of p) (tmp2_of p) (tmp3_of p)
                      (d_normals w))
                   (py_range (N_PATHS p)) (d_s w))
           (d_normals w)
           (log w ++ (py_range (N_PATHS p)
                      ≫= path_events cpu_average p (tmp1_of p) (tmp2_of p) (tmp3_of p)
                           (d_normals w))),
     Ok tt).
Proof.
  intros Hsteps Hfit. rewrite cpu_barrier_option_unfold by lia.
  apply for_paths_run; [done|]. apply Forall_forall. intros x Hx%elem_of_seqZ. lia.
Qed.

(** The run of the device kernel under a schedule: the paths its
    threads visit are processed in the order of the visits. *)
Lemma numba_gpu_barrier_option_run gridDim blockDim sched (p : params) w :
  buffers_fit p w →
  numba_gpu_barrier_option gridDim blockDim sched p w
  = (World (stored (path_value gpu_average p (tmp1_of p) (tmp2_of p) (tmp3_of p)
                      (d_normals w))
                   (drain sched (launch gridDim blockDim (N_PATHS p))).1 (d_s w))
           (d_normals w)
           (log w ++ ((drain sched (launch gridDim blockDim (N_PATHS p))).1
                      ≫= path_events gpu_average p (tmp1_of p) (tmp2_of p) (tmp3_of p)
                           (d_normals w))),
     Ok (drain sched (launch gridDim blockDim (N_PATHS p))).2).
Proof.
  intros Hfit. unfold numba_gpu_barrier_option. rewrite gpu_run_drain.
  unfold bind, gpu_path. rewrite for_paths_run; [done|done|apply drain_launch_in_range].
Qed.
End Frames.

(** ** Results that hold for every numeric carrier *)

Section Control.
Context {F : Type} `{FloatOps F}.

(** C4.  The per-path loop [path], which the three kernels share, stops
    at the first running average at or below the barrier.  On buffers
    that hold every draw and slot, the run of a path ends normally, and
    in what it logs an average at or below [B] is followed by the
    store of the payoff and by nothing else: no further read, price
    update or average update happens for that path. *)
Theorem breach_ends_the_path_loop
    (average : Z → F → F → F) (p : params) (tmp1 tmp2 tmp3 : F) (i : Z) (w : world F) :
  buffers_fit p w → 0 ≤ i < N_PATHS p →
  let run := path average p tmp1 tmp2 tmp3 i w in
  run.2 = Ok tt
  ∧ ∃ evs, log run.1 = log w ++ evs
      ∧ ∀ (k : nat) n v,
          evs !! k = Some (EvAvg i n v) → fleb v (B p) = true →
          ∃ x, drop (S k) evs = [EvStore i x].
Proof.
  intros Hfit Hi. simpl. rewrite path_run by done. simpl. split; [done|].
  eexists. split; [reflexivity|].
  intros k n v Hk Hb. unfold path_events in *.
  set (h := path_history average p tmp1 tmp3 (d_normals w) i) in *.
  destruct (decide (k < length (h ≫= iter_events p i))%nat) as [Hlt|Hge].
  - rewrite lookup_app_l in Hk by done.
    assert (S k = length (h ≫= iter_events p i)) as Hlast.
    { eapply breach_is_last; [|exact Hk|exact Hb].
      intros j [n' st'] Hj Hlen. unfold h, path_history in Hj, Hlen.
      apply history_lookup in Hj as (_ & _ & Hj). by apply Hj. }
    rewrite Hlast, drop_app_length. eauto.
  - rewrite lookup_app_r in Hk by lia.
    destruct (k - length (h ≫= iter_events p i))%nat as [|k']; simpl in Hk; [done|].
    by rewrite lookup_nil in Hk.
Qed.

(** C5.  The notebook's launch, [number_of_blocks] blocks of
    [number_of_threads] threads: the strided loops of its threads visit
    every path index of [range(N_PATHS)] once, each thread visits the
    floor or the ceiling of [N_PATHS / units] paths, and, with at least
    one step and buffers that hold every draw and slot, a run of the
    device kernel that lets every thread finish performs one store per
    path, to the slots [0 .. N_PATHS-1] in some order, and leaves in
    each slot of the output buffer [d_s] the value of the store to
    it. *)
Theorem strided_launch_covers_every_path
    (p : params) (number_of_threads : Z) (sched : list nat) (w : world F) :
  1 ≤ N_PATHS p → 1 ≤ number_of_threads →
  let blocks := number_of_blocks (N_PATHS p) number_of_threads in
  let units := blocks * number_of_threads in
  let pool := launch blocks number_of_threads (N_PATHS p) in
  mjoin pool ≡ₚ py_range (N_PATHS p)
  ∧ Forall (λ todo, Z.of_nat (length todo) = N_PATHS p `div` units
                    ∨ Z.of_nat (length todo) = (N_PATHS p + units - 1) `div` units) pool
  ∧ (1 ≤ N_STEPS p → buffers_fit p w →
     let run := numba_gpu_barrier_option blocks number_of_threads sched p w in
     ∃ pool', run.2 = Ok pool'
       ∧ (finished pool' →
          ∃ evs, log run.1 = log w ++ evs
                 ∧ stored_slots evs ≡ₚ py_range (N_PATHS p)
                 ∧ ∀ i v, EvStore i v ∈ evs → d_s run.1 !! Z.to_nat i = Some v)).
Proof.
  intros Hn Ht. simpl.
  destruct (number_of_blocks_bounds _ _ Hn Ht) as [Hb Hu].
  split_and!.
  - by apply strided_cover.
  - apply Forall_forall. intros todo (bx & tx & Hbx & Htx & ->)%elem_of_launch.
    apply stride_count; [lia|]. by apply thread_index_bounds.
  - intros _ Hfit. rewrite numba_gpu_barrier_option_run by done. simpl.
    eexists. split; [reflexivity|].
    intros Hfin. eexists. split; [reflexivity|]. split.
    + rewrite stored_slots_paths. rewrite (drain_finished _ _ Hfin).
      by apply strided_cover.
    + intros i v (Hin & ->)%store_of_paths.
      pose proof (proj1 (Forall_forall _ _) (drain_launch_in_range sched _ _ _) _ Hin) as Hi.
      simpl in Hi. apply stored_slot; [|done|destruct Hfit; lia].
      eapply Forall_impl; [apply drain_launch_in_range|]. simpl. lia.
Qed.


(** C10.  With at least one step, a draw buffer of at least
    [N_PATHS * N_STEPS] elements and an output buffer of at least
    [N_PATHS] slots, no access of the single-threaded kernel or of the
    device kernel (under any grid and schedule) is out of range: the
    run ends normally and every read [d_normals[i + n * N_PATHS]] and
    write [d_s[i]] it logs lies within the buffer. *)
Theorem every_access_is_in_bounds
    (p : params) (gridDim blockDim : Z) (sched : list nat) (w : world F) :
  1 ≤ N_STEPS p →
  N_PATHS p * N_STEPS p ≤ Z.of_nat (length (d_normals w)) →
  N_PATHS p ≤ Z.of_nat (length (d_s w)) →
  let serial := cpu_barrier_option p w in
  let device := numba_gpu_barrier_option gridDim blockDim sched p w in
  (serial.2 = Ok tt
   ∧ ∃ evs, log serial.1 = log w ++ evs ∧ Forall (access_in_bounds w) evs)
  ∧ (∃ pool', device.2 = Ok pool'
     ∧ ∃ evs, log device.1 = log w ++ evs ∧ Forall (access_in_bounds w) evs).
Proof.
  intros Hsteps Hdraws Hout. simpl.
  assert (Hfit : buffers_fit p w) by done.
  split.
  - rewrite cpu_barrier_option_unfold by lia.
    rewrite for_paths_run; [|done|].
    2:{ apply Forall_forall. intros x Hx%elem_of_seqZ. lia. }
    simpl. split; [done|]. eexists. split; [reflexivity|].
    apply Forall_bind, Forall_forall. intros i Hi%elem_of_seqZ.
    apply path_events_in_bounds; [done|lia].
  - unfold numba_gpu_barrier_option. rewrite gpu_run_drain. unfold bind, gpu_path.
    rewrite for_paths_run; [|done|apply drain_launch_in_range].
    simpl. eexists. split; [reflexivity|]. eexists. split; [reflexivity|].
    apply Forall_bind. eapply Forall_impl; [apply drain_launch_in_range|].
    intros i Hi. simpl. by apply path_events_in_bounds.
Qed.

(** C6, as the code has it.  The kernel validates nothing.  A step
    count of zero fails in the set-up, on the division by [N_STEPS],
    before any path is simulated and with the world untouched; a
    non-positive path count with a non-zero step count returns normally
    with the world untouched; and with at least one step, whatever the
    length of a draw buffer that holds [N_PATHS * N_STEPS] draws, the
    call ends normally. *)
Theorem degenerate_calls_write_nothing (p : params) (w : world F) :
  (N_STEPS p = 0 → cpu_barrier_option p w = (w, Raise ZeroDivisionError))
  ∧ (N_STEPS p ≠ 0 → N_PATHS p ≤ 0 → cpu_barrier_option p w = (w, Ok tt))
  ∧ (1 ≤ N_STEPS p → buffers_fit p w → (cpu_barrier_option p w).2 = Ok tt).
Proof.
  split_and!.
  - apply cpu_barrier_option_zero_steps.
  - intros Hs Hn. rewrite cpu_barrier_option_unfold by done.
    unfold py_range. by rewrite seqZ_nil.
  - intros Hs Hfit. rewrite cpu_barrier_option_unfold by lia.
    rewrite for_paths_run; [done|done|].
    apply Forall_forall. intros x Hx%elem_of_seqZ. lia.
Qed.
End Control.

(** ** Results over exact arithmetic *)

Section Exact.
Context {F : Type} `{ExactArith F}.

Add Ring exact_arith_ring : exact_ring.

Lemma gpu_average_cpu_average n (s a : F) : gpu_average n s a = cpu_average n s a.
Proof.
  unfold gpu_average, cpu_average.
  rewrite (fdiv_recip (fsub s a)). ring.
Qed.

Lemma cpu_average_first (s : F) : cpu_average 0 s f0 = s.
Proof.
  unfold cpu_average. rewrite of_int_0.
  replace (fadd f0 f1) with f1 by ring. rewrite fdiv_1_r. ring.
Qed.

Lemma cpu_average_same n (s : F) : cpu_average n s s = s.
Proof. unfold cpu_average. ring. Qed.

Lemma tmp1_of_zero_drift (p : params) : mu p = f0 → tmp1_of p = f0.
Proof. intros Hmu. unfold tmp1_of. rewrite fdiv_recip, Hmu. ring. Qed.

Lemma advance_zero_draw (p : params) tmp3 (s : F) : advance p f0 tmp3 s f0 = s.
Proof. unfold advance. ring. Qed.

Lemma payoff_of_max (p : params) (a : F) :
  payoff_of p a = fmax (fsub a (K p)) f0.
Proof. unfold payoff_of, fmax. by rewrite (fltb_sub a (K p)), of_int_0. Qed.




(** The update of the price in the words of the specification:
    [price += (mu*T/N_STEPS)*price + sigma*price*sqrt(T/N_STEPS)*draw]. *)
Definition claimed_price (p : params) (price draw : F) : F :=
  fadd price
    (fadd (fmul (fdiv (fmul (mu p) (T p)) (of_int (N_STEPS p))) price)
          (fmul (fmul (fmul (sigma p) price) (fsqrt (fdiv (T p) (of_int (N_STEPS p))))) draw)).









(** *** Draws and drift equal to zero *)

Lemma zero_draw_history (p : params) tmp3 ds i ns :
  (∀ n, n ∈ ns → array_get ds (i + n * N_PATHS p) = Some f0) →
  Forall (λ it, it.2 = Locals (S0 p) (S0 p))
    (history cpu_average p f0 tmp3 ds i ns (Locals (S0 p) (S0 p))).
Proof.
  intros Hin. induction ns as [|n ns IH]; simpl; [constructor|].
  rewrite Hin by left. simpl.
  rewrite advance_zero_draw, cpu_average_same.
  constructor; [done|]. destruct (fleb (S0 p) (B p)); [constructor|].
  apply IH. intros n' Hn'. apply Hin. by right.
Qed.

Lemma zero_draw_path_history (p : params) tmp3 ds i :
  1 ≤ N_STEPS p →
  (∀ n, 0 ≤ n < N_STEPS p → array_get ds (i + n * N_PATHS p) = Some f0) →
  let h := path_history cpu_average p f0 tmp3 ds i in
  Forall (λ it, it.2 = Locals (S0 p) (S0 p)) h
  ∧ h ≠ []
  ∧ (fleb (S0 p) (B p) = true → h = [(0, Locals (S0 p) (S0 p))]).
Proof.
  intros Hsteps Hin. unfold path_history, py_range.
  rewrite seqZ_cons by lia. simpl.
  rewrite Hin by lia. simpl.
  rewrite advance_zero_draw, cpu_average_first.
  split_and!; [|done|].
  - constructor; [done|]. destruct (fleb (S0 p) (B p)); [constructor|].
    apply zero_draw_history.
    intros n Hn%elem_of_seqZ. apply Hin. lia.
  - by intros ->.
Qed.

Lemma final_of_constant (st st' : locals (F:=F)) (h : list (Z * locals (F:=F))) :
  h ≠ [] → Forall (λ it, it.2 = st') h → final st h = st'.
Proof.
  intros Hne Hall. unfold final.
  destruct (last h) as [it|] eqn:Hlast.
  - rewrite fmap_last, Hlast. simpl.
    apply last_Some_elem_of in Hlast.
    by apply (proj1 (Forall_forall _ _) Hall).
  - by apply last_None in Hlast.
Qed.

Lemma zero_draws_in_range (p : params) w i n :
  buffers_fit p w → Forall (λ d, d = f0) (d_normals w) →
  0 ≤ i < N_PATHS p → 0 ≤ n < N_STEPS p →
  array_get (d_normals w) (i + n * N_PATHS p) = Some f0.
Proof.
  intros Hfit Hzero Hi Hn.
  destruct (array_get_in_range (d_normals w) (i + n * N_PATHS p)) as [-> [d Hd]].
  { by apply draw_index_in_range. }
  rewrite Hd. f_equal.
  apply list_elem_of_lookup_2 in Hd.
  by apply (proj1 (Forall_forall _ _) Hzero).
Qed.

(** C7.  With a drift of zero and every draw equal to zero, and at
    least one step, a run of the single-threaded kernel ends normally
    and: every price it assigns is the spot; for every path, it logs a
    running average at or below the barrier, that is a breach, exactly
    when the spot is at or below the barrier; and when the spot is
    above the barrier every path's slot holds
    [max(S0 - K, 0) * exp(-r*T)]. *)
Theorem zero_draws_keep_the_price_at_spot (p : params) (w : world F) :
  1 ≤ N_STEPS p → buffers_fit p w →
  mu p = f0 → Forall (λ d, d = f0) (d_normals w) →
  let run := cpu_barrier_option p w in
  run.2 = Ok tt
  ∧ ∃ evs, log run.1 = log w ++ evs
      ∧ (∀ i n v, EvPrice i n v ∈ evs → v = S0 p)
      ∧ (∀ i, 0 ≤ i < N_PATHS p →
           (∃ n v, EvAvg i n v ∈ evs ∧ fleb v (B p) = true) ↔ fleb (S0 p) (B p) = true)
      ∧ (fleb (S0 p) (B p) = false →
         ∀ i, 0 ≤ i < N_PATHS p →
           d_s run.1 !! Z.to_nat i
           = Some (fmul (fmax (fsub (S0 p) (K p)) f0) (fexp (fmul (fneg (r p)) (T p))))).
Proof.
  intros Hsteps Hfit Hmu Hzero. simpl.
  rewrite cpu_barrier_option_unfold by lia.
  rewrite for_paths_run; [|done|].
  2:{ apply Forall_forall. intros x Hx%elem_of_seqZ. lia. }
  simpl. split; [done|]. eexists. split; [reflexivity|].
  rewrite (tmp1_of_zero_drift p Hmu).
  assert (Hh : ∀ i, 0 ≤ i < N_PATHS p →
    let h := path_history cpu_average p f0 (tmp3_of p) (d_normals w) i in
    Forall (λ it, it.2 = Locals (S0 p) (S0 p)) h ∧ h ≠ []
    ∧ (fleb (S0 p) (B p) = true → h = [(0, Locals (S0 p) (S0 p))])).
  { intros i Hi. apply zero_draw_path_history; [done|].
    intros n Hn. by apply zero_draws_in_range. }
  assert (Hev : ∀ j e, 0 ≤ j < N_PATHS p →
    e ∈ path_events cpu_average p f0 (tmp2_of p) (tmp3_of p) (d_normals w) j →
    (∃ n, e = EvLoad (j + n * N_PATHS p) ∨ e = EvPrice j n (S0 p) ∨ e = EvAvg j n (S0 p))
    ∨ ∃ v, e = EvStore j v).
  { intros j e Hj He. unfold path_events in He.
    apply elem_of_app in He as [He|He].
    - left. apply list_elem_of_bind in He as ([n st] & He & Hit).
      destruct (Hh j Hj) as (Hall & _ & _).
      apply (proj1 (Forall_forall _ _) Hall) in Hit. simpl in Hit. subst st.
      exists n. unfold iter_events in He. simpl in He.
      apply elem_of_cons in He as [->|He]; [by left|].
      apply elem_of_cons in He as [->|He]; [right; by left|].
      apply list_elem_of_singleton in He as ->. right; by right.
    - right. apply list_elem_of_singleton in He. eauto. }
  split_and!.
  - intros i n v (j & He & Hj%elem_of_seqZ)%list_elem_of_bind.
    destruct (Hev j _ ltac:(lia) He) as [[n' [?|[?|?]]]|[v' ?]]; congruence.
  - intros i Hi. split.
    + intros (n & v & (j & He & Hj%elem_of_seqZ)%list_elem_of_bind & Hb).
      destruct (Hev j _ ltac:(lia) He) as [[n' [?|[?|?]]]|[v' ?]]; congruence.
    + intros Hb. exists 0, (S0 p). split; [|done].
      apply list_elem_of_bind. exists i. split; [|apply elem_of_seqZ; lia].
      destruct (Hh i Hi) as (_ & _ & Hone). unfold path_events. rewrite (Hone Hb).
      apply elem_of_app. left. simpl. right. right. left.
  - intros Hb i Hi. rewrite stored_lookup.
    2:{ apply Forall_forall. intros x Hx%elem_of_seqZ. lia. }
    rewrite decide_True.
    2:{ split; [apply elem_of_seqZ; lia|]. destruct Hfit. lia. }
    f_equal. rewrite Z2Nat.id by lia. unfold path_value.
    destruct (Hh i Hi) as (Hall & Hne & _).
    rewrite (final_of_constant _ (Locals (S0 p) (S0 p))) by done. simpl.
    rewrite payoff_of_max. unfold tmp2_of. ring.
Qed.

(** *** A breach at the first step *)

(** C8, as the code has it.  With at least one step and buffers that
    hold every draw and slot, when the first simulated price
    [s1 = S0 + (mu*T/N_STEPS)*S0 + sigma*S0*sqrt(T/N_STEPS)*d_normals[i]]
    of a path is at or below the barrier, the path breaches at step 0
    in a call of the single-threaded kernel: the call ends normally,
    the inner loop of the path performs one iteration, the running
    average it leaves is [s1], and the slot of the path receives, and
    holds after the call, [max(s1 - K, 0) * exp(-r*T)]. *)
Theorem first_price_breach_ends_the_path (p : params) (i : Z) (d : F) (w : world F) :
  1 ≤ N_STEPS p → buffers_fit p w → 0 ≤ i < N_PATHS p →
  array_get (d_normals w) i = Some d →
  let s1 := claimed_price p (S0 p) d in
  let v := fmul (fmax (fsub s1 (K p)) f0) (fexp (fmul (fneg (r p)) (T p))) in
  fleb s1 (B p) = true →
  let run := cpu_barrier_option p w in
  ∃ hs vs,
    run.2 = Ok tt
    ∧ log run.1 = log w ++ (py_range (N_PATHS p) ≫= λ j, path_segment p j (hs j) (vs j))
    ∧ hs i = [(0, Locals s1 s1)]
    ∧ vs i = v
    ∧ d_s run.1 !! Z.to_nat i = Some v.
Proof.
  intros Hsteps Hfit Hi Hd. simpl. intros Hb.
  exists (path_history cpu_average p (tmp1_of p) (tmp3_of p) (d_normals w)),
         (path_value cpu_average p (tmp1_of p) (tmp2_of p) (tmp3_of p) (d_normals w)).
  rewrite cpu_barrier_option_run by done. simpl.
  assert (path_history cpu_average p (tmp1_of p) (tmp3_of p) (d_normals w) i
          = [(0, Locals (claimed_price p (S0 p) d) (claimed_price p (S0 p) d))]) as Hh.
  { unfold path_history, py_range. rewrite seqZ_cons by lia. simpl.
    rewrite Z.add_0_r, Hd. simpl. rewrite cpu_average_first.
    change (advance p (tmp1_of p) (tmp3_of p) (S0 p) d) with (claimed_price p (S0 p) d).
    by rewrite Hb. }
  assert (path_value cpu_average p (tmp1_of p) (tmp2_of p) (tmp3_of p) (d_normals w) i
          = fmul (fmax (fsub (claimed_price p (S0 p) d) (K p)) f0)
                 (fexp (fmul (fneg (r p)) (T p)))) as Hv.
  { unfold path_value. rewrite Hh. simpl. rewrite payoff_of_max. unfold tmp2_of. ring. }
  split_and!; [done|done|exact Hh|exact Hv|].
  rewrite <- Hv. apply stored_slot.
  - apply Forall_forall. intros x Hx%elem_of_seqZ. lia.
  - apply elem_of_seqZ. lia.
  - destruct Hfit. lia.
Qed.
End Exact.

(** ** The three strategies on any carrier *)

Section Strategies.
Context {F : Type} `{FloatOps F}.


End Strategies.

(** ** Exact rationals as a carrier

    [Qc] satisfies [ExactArith].  Its [fexp] and [fsqrt] are rational
    stand-ins (a Taylor polynomial, a few Newton steps); no result
    below depends on them. *)

Definition Qc_exp (x : Qc) : Qc :=
  (1 + x + x * x / Q2Qc 2 + x * x * x / Q2Qc 6 + x * x * x * x / Q2Qc 24)%Qc.

Definition Qc_sqrt (x : Qc) : Qc :=
  let newton (y : Qc) := ((y + x / y) / Q2Qc 2)%Qc in
  newton (newton (newton (newton 1%Qc))).

#[export] Instance Qc_ops : FloatOps Qc := {|
  f0 := 0%Qc; f1 := 1%Qc;
  fadd := Qcplus; fsub := Qcminus; fmul := Qcmult; fdiv := Qcdiv; fneg := Qcopp;
  fexp := Qc_exp; fsqrt := Qc_sqrt;
  of_int := fun z => Q2Qc (inject_Z z);
  fleb := fun a b => Qle_bool a b;
  fltb := fun a b => negb (Qle_bool b a)
|}.

Lemma Qc_fltb_sub (a b : Qc) :
  negb (Qle_bool a b) = negb (Qle_bool (a - b)%Qc 0%Qc).
Proof.
  f_equal. apply eq_true_iff_eq. rewrite !Qle_bool_iff.
  change (a <= b ↔ a - b <= 0)%Qc. split; intros Hle.
  - apply (Qcplus_le_mono_r _ _ b). ring_simplify. exact Hle.
  - apply (Qcplus_le_mono_r _ _ b) in Hle. ring_simplify in Hle. exact Hle.
Qed.

#[export] Instance Qc_exact : ExactArith Qc.
Proof.
  split.
  - exact Qcrt.
  - intros x y. simpl. unfold Qcdiv. ring.
  - intros x. simpl. unfold Qcdiv. replace (/ 1)%Qc with 1%Qc by (apply Qc_is_canon; reflexivity). ring.
  - reflexivity.
  - intros a b. simpl. apply Qc_fltb_sub.
Qed.


(** ** Concrete runs over the rationals *)

Definition ratio (n d : Z) : Qc := Q2Qc (Qmake n (Z.to_pos d)).

(** The notebook's market parameters, with small path and step counts. *)
Definition notebook_params (n_steps n_paths : Z) : params (F:=Qc) :=
  Params (ratio 1 1) (ratio 110 1) (ratio 100 1) (ratio 120 1)
         (ratio 35 100) (ratio 1 10) (ratio 5 100) n_steps n_paths.

(** Three paths of two steps: six draws, three output slots. *)
Definition sample_world : world Qc :=
  World [0%Qc; 0%Qc; 0%Qc]
        [ratio 1 2; ratio (-1) 1; ratio 0 1; ratio (-1) 4; ratio (-2) 1; ratio 1 1] [].

(** The same market without drift, and a world whose draws are zero. *)
Definition driftless_params (n_steps n_paths : Z) : params (F:=Qc) :=
  Params (ratio 1 1) (ratio 110 1) (ratio 100 1) (ratio 120 1)
         (ratio 35 100) 0%Qc (ratio 5 100) n_steps n_paths.

Definition still_world : world Qc :=
  World [ratio 7 1; ratio 7 1] [0%Qc; 0%Qc; 0%Qc; 0%Qc; 0%Qc; 0%Qc] [].

(** The output buffer of a run, as plain fractions. *)
Definition output_of {A} (run : world Qc * result A) : list Q := this <$> d_s run.1.

Example launch_of_four_threads : launch 2 2 7 = [[0; 4]; [1; 5]; [2; 6]; [3]].
Proof. reflexivity. Qed.

Example notebook_launch_of_seven_paths :
  number_of_blocks 7 3 = 3 ∧ launch 3 3 7 = [[0]; [1]; [2]; [3]; [4]; [5]; [6]; []; []].
Proof. split; reflexivity. Qed.

Example zero_steps_raise :
  cpu_barrier_option (notebook_params 0 3) sample_world
  = (sample_world, Raise ZeroDivisionError).
Proof. reflexivity. Qed.

Example device_run_matches_serial_run :
  output_of (numba_gpu_barrier_option 1 2 [1; 0; 0]%nat (notebook_params 2 3) sample_world)
  = output_of (cpu_barrier_option (notebook_params 2 3) sample_world).
Proof. vm_compute. reflexivity. Qed.

Example still_run_pays_spot_minus_strike :
  output_of (cpu_barrier_option (driftless_params 3 2) still_world)
  = [this (ratio 10 1 * Qc_exp (- ratio 5 100))%Qc; this (ratio 10 1 * Qc_exp (- ratio 5 100))%Qc].
Proof. vm_compute. reflexivity. Qed.

(** ** The results at concrete inputs *)




Lemma breach_ends_the_path_loop_witness :
  let p := notebook_params 2 3 in
  let run := path gpu_average p (tmp1_of p) (tmp2_of p) (tmp3_of p) 1 sample_world in
  run.2 = Ok tt
  ∧ ∃ evs, log run.1 = log sample_world ++ evs
      ∧ ∀ (k : nat) n v,
          evs !! k = Some (EvAvg 1 n v) → fleb v (B p) = true →
          ∃ x, drop (S k) evs = [EvStore 1 x].
Proof.
  apply (breach_ends_the_path_loop gpu_average (notebook_params 2 3)
           (tmp1_of (notebook_params 2 3)) (tmp2_of (notebook_params 2 3))
           (tmp3_of (notebook_params 2 3)) 1 sample_world).
  - unfold buffers_fit. simpl. lia.
  - simpl. lia.
Defined.

Lemma strided_launch_covers_every_path_witness :
  let p := notebook_params 2 3 in
  let blocks := number_of_blocks (N_PATHS p) 2 in
  let units := blocks * 2 in
  let pool := launch blocks 2 (N_PATHS p) in
  let run := numba_gpu_barrier_option blocks 2 [2; 0; 1]%nat p sample_world in
  mjoin pool ≡ₚ py_range (N_PATHS p)
  ∧ Forall (λ todo, Z.of_nat (length todo) = N_PATHS p `div` units
                    ∨ Z.of_nat (length todo) = (N_PATHS p + units - 1) `div` units) pool
  ∧ stored_slots (log run.1) ≡ₚ py_range (N_PATHS p)
  ∧ ∀ i v, EvStore i v ∈ log run.1 → d_s run.1 !! Z.to_nat i = Some v.
Proof.
  destruct (strided_launch_covers_every_path (notebook_params 2 3) 2 [2; 0; 1]%nat
              sample_world) as (Hcover & Hcount & Hrun).
  - simpl. lia.
  - lia.
  - destruct Hrun as (pool' & Hok & Hfin).
    + simpl. lia.
    + unfold buffers_fit. simpl. lia.
    + destruct Hfin as (evs & Hlog & Hperm & Hheld).
      * vm_compute in Hok. injection Hok as <-. repeat constructor.
      * change (log sample_world) with (@nil (event Qc)) in Hlog.
        rewrite app_nil_l in Hlog. cbv zeta. rewrite Hlog.
        split_and!; [exact Hcover|exact Hcount|exact Hperm|exact Hheld].
Defined.


Lemma every_access_is_in_bounds_witness :
  let p := notebook_params 2 3 in
  let serial := cpu_barrier_option p sample_world in
  let device := numba_gpu_barrier_option 2 1 [1; 0; 0]%nat p sample_world in
  (serial.2 = Ok tt
   ∧ ∃ evs, log serial.1 = log sample_world ++ evs
            ∧ Forall (access_in_bounds sample_world) evs)
  ∧ (∃ pool', device.2 = Ok pool'
     ∧ ∃ evs, log device.1 = log sample_world ++ evs
              ∧ Forall (access_in_bounds sample_world) evs).
Proof.
  apply (every_access_is_in_bounds (notebook_params 2 3) 2 1 [1; 0; 0]%nat sample_world).
  - simpl. lia.
  - simpl. lia.
  - simpl. lia.
Defined.

Lemma zero_draws_keep_the_price_at_spot_witness :
  let p := driftless_params 3 2 in
  let run := cpu_barrier_option p still_world in
  run.2 = Ok tt
  ∧ ∃ evs, log run.1 = log still_world ++ evs
      ∧ (∀ i n v, EvPrice i n v ∈ evs → v = S0 p)
      ∧ (∀ i, 0 ≤ i < N_PATHS p →
           (∃ n v, EvAvg i n v ∈ evs ∧ fleb v (B p) = true) ↔ fleb (S0 p) (B p) = true)
      ∧ (fleb (S0 p) (B p) = false →
         ∀ i, 0 ≤ i < N_PATHS p →
           d_s run.1 !! Z.to_nat i
           = Some (fmul (fmax (fsub (S0 p) (K p)) f0) (fexp (fmul (fneg (r p)) (T p))))).
Proof.
  apply (zero_draws_keep_the_price_at_spot (driftless_params 3 2) still_world).
  - simpl. lia.
  - unfold buffers_fit. simpl. lia.
  - reflexivity.
  - simpl. repeat constructor.
Defined.

(** *** Calls with invalid arguments (C6) *)

(** C6 as the specification states it: a call with a non-positive path
    count, a non-positive step count, or a draw buffer whose length is
    not [N_PATHS * N_STEPS], fails before anything is simulated or
    written. *)
Definition fails_fast_claim {F} `{FloatOps F} (p : params) (w : world F) : Prop :=
  N_PATHS p ≤ 0 ∨ N_STEPS p ≤ 0
  ∨ Z.of_nat (length (d_normals w)) ≠ N_PATHS p * N_STEPS p →
  ∃ e, cpu_barrier_option p w = (w, Raise e).

(** One path of one step, handed two draws. *)
Definition long_draws_world : world Qc := World [0%Qc] [0%Qc; 0%Qc] [].

(** C6 fails on this call: the kernel accepts the mismatched draw
    buffer, the call ends normally and slot 0 is written. *)
Lemma mismatched_draw_buffer_is_accepted :
  ¬ fails_fast_claim (notebook_params 1 1) long_draws_world.
Proof.
  intros Hclaim. destruct Hclaim as [e He].
  - right. right. simpl. lia.
  - apply (f_equal snd) in He. vm_compute in He. discriminate He.
Qed.

Example mismatched_draw_buffer_run :
  (cpu_barrier_option (notebook_params 1 1) long_draws_world).2 = Ok tt
  ∧ output_of (cpu_barrier_option (notebook_params 1 1) long_draws_world)
    = [this (ratio 22 1 * Qc_exp (- ratio 5 100))%Qc].
Proof. split; vm_compute; reflexivity. Qed.

Lemma degenerate_calls_write_nothing_witness :
  cpu_barrier_option (notebook_params 0 3) sample_world
  = (sample_world, Raise ZeroDivisionError)
  ∧ cpu_barrier_option (notebook_params 2 0) sample_world = (sample_world, Ok tt)
  ∧ (cpu_barrier_option (notebook_params 1 1) long_draws_world).2 = Ok tt.
Proof.
  split_and!.
  - apply (proj1 (degenerate_calls_write_nothing (notebook_params 0 3) sample_world)).
    reflexivity.
  - apply (proj1 (proj2 (degenerate_calls_write_nothing (notebook_params 2 0) sample_world))).
    + simpl. lia.
    + simpl. lia.
  - apply (proj2 (proj2 (degenerate_calls_write_nothing (notebook_params 1 1) long_draws_world))).
    + simpl. lia.
    + unfold buffers_fit. simpl. lia.
Defined.

(** *** A spot below the barrier (C8) *)

(** C8 as the specification states it: with the spot below the barrier,
    every path leaves its loop after the first iteration with a running
    average equal to the spot, and its slot receives
    [max(S0 - K, 0) * exp(-r*T)]. *)
Definition spot_below_barrier_claim {F} `{FloatOps F}
    (p : params) (w : world F) : Prop :=
  fltb (S0 p) (B p) = true →
  ∀ i, 0 ≤ i < N_PATHS p →
    let v := fmul (fmax (fsub (S0 p) (K p)) f0) (fexp (fmul (fneg (r p)) (T p))) in
    ∃ s1,
      path cpu_average p (tmp1_of p) (tmp2_of p) (tmp3_of p) i w
      = (World (<[Z.to_nat i := v]> (d_s w)) (d_normals w)
               (log w ++ [EvLoad (i + 0 * N_PATHS p); EvPrice i 0 s1;
                          EvAvg i 0 (S0 p); EvStore i v]),
         Ok tt).

(** A spot of 90 under a barrier of 100 and a strike of 110, no drift,
    no discounting, [T / N_STEPS = 1], so that [Qc_sqrt] and [Qc_exp]
    return the exact values 1 and 1; one path of two steps whose first
    draw is 1. *)
Definition low_spot_params : params (F:=Qc) :=
  Params (ratio 2 1) (ratio 110 1) (ratio 100 1) (ratio 90 1)
         (ratio 1 1) 0%Qc 0%Qc 2 1.

Definition rising_world : world Qc := World [0%Qc] [ratio 1 1; 0%Qc] [].

(** The first price is 180, above the barrier: the loop runs both
    steps, the running average is 180 and the slot receives 70. *)
Example low_spot_run :
  let run := cpu_barrier_option low_spot_params rising_world in
  run.2 = Ok tt
  ∧ output_of run = [this (ratio 70 1)]
  ∧ this <$> averages_of (log run.1) = [this (ratio 180 1); this (ratio 180 1)].
Proof. vm_compute. done. Qed.

(** C8 fails on this call: the spot is below the barrier, and the path
    neither leaves its loop at step 0 nor logs the four events of a
    one-iteration run. *)
Lemma low_spot_need_not_breach :
  ¬ spot_below_barrier_claim low_spot_params rising_world.
Proof.
  intros Hclaim. destruct (Hclaim eq_refl 0 ltac:(simpl; lia)) as [s1 Hrun].
  apply (f_equal (λ run, length (log run.1))) in Hrun.
  vm_compute in Hrun. discriminate Hrun.
Qed.

(** A spot of 90 again, with a first draw of -1/2: the first price is
    45, at or below the barrier. *)
Definition falling_world : world Qc := World [0%Qc] [ratio (-1) 2; 0%Qc] [].

Lemma first_price_breach_ends_the_path_witness :
  let p := low_spot_params in
  let s1 := claimed_price p (S0 p) (ratio (-1) 2) in
  let v := fmul (fmax (fsub s1 (K p)) f0) (fexp (fmul (fneg (r p)) (T p))) in
  let run := cpu_barrier_option p falling_world in
  ∃ hs vs,
    run.2 = Ok tt
    ∧ log run.1
      = log falling_world ++ (py_range (N_PATHS p) ≫= λ j, path_segment p j (hs j) (vs j))
    ∧ hs 0 = [(0, Locals s1 s1)]
    ∧ vs 0 = v
    ∧ d_s run.1 !! Z.to_nat 0 = Some v.
Proof.
  apply (first_price_breach_ends_the_path low_spot_params 0 (ratio (-1) 2) falling_world).
  - simpl. lia.
  - unfold buffers_fit. simpl. lia.
  - simpl. lia.
  - reflexivity.
  - vm_compute. reflexivity.
Defined.

(** *** The strategies under rounding (C1) *)

(** IEEE binary64, the carrier of the source, over Rocq's primitive
    floats: the four operations, the square root and the comparisons
    are the correctly rounded ones.  The promotion of an integer goes
    through its binary digits and is exact below [2^53].  [float_exp]
    is a stand-in for [math.exp], a Taylor polynomial whose value at
    zero is [1.0], the value of [math.exp] there. *)
Fixpoint float_of_positive (q : positive) : PrimFloat.float :=
  match q with
  | xH => PrimFloat.one
  | xO q' => PrimFloat.mul PrimFloat.two (float_of_positive q')
  | xI q' => PrimFloat.add (PrimFloat.mul PrimFloat.two (float_of_positive q')) PrimFloat.one
  end.

Definition float_of_Z (z : Z) : PrimFloat.float :=
  match z with
  | Z0 => PrimFloat.zero
  | Zpos q => float_of_positive q
  | Zneg q => PrimFloat.opp (float_of_positive q)
  end.

Definition float_exp (x : PrimFloat.float) : PrimFloat.float :=
  PrimFloat.add (PrimFloat.add PrimFloat.one x)
                (PrimFloat.div (PrimFloat.mul x x) PrimFloat.two).

#[export] Instance binary64_ops : FloatOps PrimFloat.float := {|
  f0 := PrimFloat.zero; f1 := PrimFloat.one;
  fadd := PrimFloat.add; fsub := PrimFloat.sub; fmul := PrimFloat.mul;
  fdiv := PrimFloat.div; fneg := PrimFloat.opp;
  fexp := float_exp; fsqrt := PrimFloat.sqrt;
  of_int := float_of_Z;
  fleb := PrimFloat.leb;
  fltb := PrimFloat.ltb
|}.

(** The binary64 number [n / d]. *)
Definition dyadic (n d : Z) : PrimFloat.float :=
  PrimFloat.div (float_of_Z n) (float_of_Z d).




(** One path of five steps over a maturity of 5, so that
    [sqrt(T/N_STEPS)] is exactly 1; no drift and no discounting; a spot
    of 128, a volatility of 1, a strike of 59 and a barrier of 57.75.
    The draws -1/8, -1/2, -1/2, 1/4 and 1 give the prices 112, 56, 28,
    35 and 70, every one of them computed without rounding.  The mean
    of the first four prices is 57.75, the barrier itself.  The
    notebook hands its parameters and draws over as binary32 numbers,
    which these all are, and the kernels compute on them in binary64;
    the rounding of a stored value to the binary32 output array, which
    keeps zero at zero and the order of the values, is left out. *)
Definition grazing_params : params (F:=PrimFloat.float) :=
  Params (float_of_Z 5) (float_of_Z 59) (dyadic 231 4) (float_of_Z 128)
         (float_of_Z 1) (float_of_Z 0) (float_of_Z 0) 5 1.

Definition grazing_world : world PrimFloat.float :=
  World [PrimFloat.zero]
        [dyadic (-1) 8; dyadic (-1) 2; dyadic (-1) 2; dyadic 1 4; float_of_Z 1] [].

(** At step 3 the device kernel's mean is 57.75: the path is knocked
    out after four steps and pays [max(57.75 - 59, 0) = 0].  The CPU
    kernel's mean at step 3 is one unit in the last place above 57.75:
    its loop goes on, the mean of the five prices is above the strike,
    and the path pays more than 1.2. *)
Example grazing_run :
  let serial := cpu_barrier_option grazing_params grazing_world in
  let device := numba_gpu_barrier_option 1 1 [0%nat] grazing_params grazing_world in
  serial.2 = Ok tt ∧ device.2 = Ok [[]]
  ∧ length (averages_of (log serial.1)) = 5%nat
  ∧ length (averages_of (log device.1)) = 4%nat
  ∧ last (averages_of (log device.1)) = Some (dyadic 231 4)
  ∧ d_s device.1 = [PrimFloat.zero]
  ∧ Forall (λ x, PrimFloat.leb (dyadic 6 5) x = true) (d_s serial.1).
Proof. vm_compute. repeat split. repeat constructor. Qed.


(** * Further results on the notebooks' code *)

(** ** More laws of exact arithmetic *)

(** Division undoes multiplication by a non-zero divisor, and the
    promotion of integers is additive and sends positive integers to
    non-zero values. *)
Class ExactField (F : Type) `{ExactArith F} := {
  fdiv_mul : ∀ x y, y ≠ f0 → fmul (fdiv x y) y = x;
  of_int_succ : ∀ n, of_int (n + 1) = fadd (of_int n) f1;
  of_int_nonzero : ∀ n, 0 < n → of_int n ≠ f0
}.

(** The comparisons form a total preorder: [a < b] is the negation of
    [b <= a], and [<=] is transitive. *)
Class OrderLaws (F : Type) `{FloatOps F} := {
  fltb_fleb : ∀ a b, fltb a b = negb (fleb b a);
  fleb_trans : ∀ a b c, fleb a b = true → fleb b c = true → fleb a c = true
}.

#[export] Instance Qc_field : ExactField Qc.
Proof.
  split.
  - intros x y Hy. simpl. unfold Qcdiv.
    rewrite <- Qcmult_assoc, (Qcmult_inv_l y Hy). ring.
  - intros n. simpl. apply Qc_is_canon. simpl.
    rewrite !Qred_correct, inject_Z_plus. reflexivity.
  - intros n Hn. simpl. intros Heq.
    apply (Q2Qc_eq_iff (inject_Z n) 0) in Heq.
    apply (inject_Z_injective n 0) in Heq. lia.
Qed.

#[export] Instance Qc_order : OrderLaws Qc.
Proof.
  split.
  - reflexivity.
  - intros a b c. simpl. rewrite !Qle_bool_iff. apply Qle_trans.
Qed.

(** ** The running average is the mean of the prices *)

Section Mean.
Context {F : Type} `{ExactField F}.

Add Ring exact_field_ring : exact_ring.

(** A sum accumulated from the left, starting at [0.0]. *)
Definition fsum (l : list F) : F := foldl fadd f0 l.

(** The prices a run of iterations logs, in order. *)
Definition prices_of (evs : list (event F)) : list F :=
  omap (λ e, match e with EvPrice _ _ v => Some v | _ => None end) evs.

Lemma fsum_snoc (l : list F) (x : F) : fsum (l ++ [x]) = fadd (fsum l) x.
Proof. unfold fsum. by rewrite foldl_app. Qed.

Lemma mean_step n (s a : F) :
  0 ≤ n →
  fmul (of_int (n + 1)) (gpu_average n s a) = fadd (fmul (of_int n) a) s.
Proof.
  intros Hn. unfold gpu_average.
  assert (Hd : fadd (of_int n) f1 ≠ f0).
  { rewrite <- of_int_succ. apply of_int_nonzero. lia. }
  rewrite of_int_succ.
  transitivity (fadd (fmul (fadd (of_int n) f1) a)
                     (fmul (fdiv (fsub s a) (fadd (of_int n) f1)) (fadd (of_int n) f1))).
  { ring. }
  rewrite (fdiv_mul _ _ Hd). ring.
Qed.

Lemma prices_of_iterations (p : params) i (h : list (Z * locals (F:=F))) :
  prices_of (h ≫= iter_events p i) = (λ it, s_curr it.2) <$> h.
Proof. induction h as [|it h IH]; [done|]. by rewrite bind_cons, fmap_cons, <- IH. Qed.

Lemma history_means average (p : params) tmp1 tmp3 ds i s0 (k : nat) it :
  (∀ n s a, average n s a = gpu_average n s a) →
  let h := history average p tmp1 tmp3 ds i (py_range (N_STEPS p)) (Locals s0 f0) in
  h !! k = Some it →
  fmul (of_int (Z.of_nat k + 1)) (running_average it.2)
  = fsum (take (S k) ((λ it, s_curr it.2) <$> h)).
Proof.
  intros Havg h. revert it. induction k as [|k IH]; intros [n st] Hk.
  - pose proof Hk as Hk'. apply history_lookup in Hk' as (Hn & (d & _ & _ & Ha) & _).
    apply lookup_seqZ in Hn as [-> _]. simpl in Ha. simpl.
    rewrite Ha, Havg, (mean_step 0) by lia.
    destruct h as [|it h']; [done|]. injection Hk as ->. simpl.
    rewrite of_int_0. unfold fsum. simpl. ring.
  - destruct (h !! k) as [[n' st']|] eqn:Hprev.
    2:{ apply lookup_lt_Some in Hk. apply lookup_ge_None in Hprev. lia. }
    specialize (IH _ eq_refl). simpl in IH.
    pose proof Hk as Hk'. apply history_lookup in Hk' as (Hn & (d & _ & _ & Ha) & _).
    apply lookup_seqZ in Hn as [-> _]. simpl in Ha. fold h in Ha. rewrite Hprev in Ha.
    simpl in Ha. simpl running_average.
    rewrite Ha, Havg. rewrite Z.add_0_l, mean_step by lia.
    rewrite (take_S_r _ (S k) (s_curr st)).
    2:{ rewrite list_lookup_fmap, Hk. done. }
    rewrite fsum_snoc. rewrite <- IH.
    replace (Z.of_nat (S k)) with (Z.of_nat k + 1) by lia. done.
Qed.

(** Every running average a run of [body] logs, the [k]-th one
    multiplied by [k + 1], is the sum of the first [k + 1] prices the
    run logs: the running average is the arithmetic mean of the prices
    simulated so far. *)
Definition averages_are_means (w : world F) (body : M F unit) : Prop :=
  ∃ evs, log (body w).1 = log w ++ evs
    ∧ ∀ (k : nat) v,
        averages_of evs !! k = Some v →
        fmul (of_int (Z.of_nat k + 1)) v = fsum (take (S k) (prices_of evs)).

Lemma path_averages_are_means average (p : params) tmp1 tmp2 tmp3 i w :
  (∀ n s a, average n s a = gpu_average n s a) →
  buffers_fit p w → 0 ≤ i < N_PATHS p →
  averages_are_means w (path average p tmp1 tmp2 tmp3 i).
Proof.
  intros Havg Hfit Hi. unfold averages_are_means. rewrite path_run by done. simpl.
  eexists. split; [reflexivity|]. unfold path_events.
  intros k v. unfold averages_of, prices_of. rewrite !omap_app. simpl.
  rewrite !app_nil_r.
  fold (averages_of (path_history average p tmp1 tmp3 (d_normals w) i ≫= iter_events p i)).
  fold (prices_of (path_history average p tmp1 tmp3 (d_normals w) i ≫= iter_events p i)).
  rewrite averages_of_iterations, prices_of_iterations, list_lookup_fmap.
  destruct (path_history average p tmp1 tmp3 (d_normals w) i !! k) as [it|] eqn:Hk; [|done].
  simpl. intros [= <-]. by apply (history_means average).
Qed.

(** X1.  In the CPU kernels and in the device kernel, on buffers that
    hold every draw and slot, the running average of a path after its
    step [k] is the arithmetic mean of the [k + 1] prices simulated so
    far: [(k + 1) * running_average] is their sum. *)
Theorem running_average_is_the_mean_of_the_prices (p : params) (i : Z) (w : world F) :
  buffers_fit p w → 0 ≤ i < N_PATHS p →
  averages_are_means w (path cpu_average p (tmp1_of p) (tmp2_of p) (tmp3_of p) i)
  ∧ averages_are_means w (gpu_path p i).
Proof.
  intros Hfit Hi. split.
  - apply path_averages_are_means; [|done|done].
    intros n s a. symmetry. apply gpu_average_cpu_average.
  - by apply path_averages_are_means.
Qed.
End Mean.

(** ** Knocked-out paths *)

Section Knockout.
Context {F : Type} `{OrderLaws F}.

Lemma breach_is_final average (p : params) tmp1 tmp3 ds i ns st (k : nat) it :
  let h := history average p tmp1 tmp3 ds i ns st in
  h !! k = Some it → fleb (running_average it.2) (B p) = true →
  final st h = it.2.
Proof.
  intros h Hk Hb. destruct it as [n st'].
  pose proof Hk as Hk'. apply history_lookup in Hk' as (_ & _ & Hlast).
  pose proof (lookup_lt_Some _ _ _ Hk) as Hlt.
  assert (S k = length h) as Hlen.
  { destruct (decide (S k < length h)%nat) as [Hlt'|]; [|lia].
    simpl in Hb. rewrite (Hlast Hlt') in Hb. done. }
  unfold final. rewrite fmap_last, last_lookup. fold h. rewrite <- Hlen. simpl.
  by rewrite Hk.
Qed.

(** X2.  When the barrier is at or below the strike, a path that is
    knocked out pays nothing: if the run of a path logs a running
    average at or below [B], the value it stores is [tmp2 * 0].  This
    holds for the loop body of the three kernels and for every numeric
    carrier whose comparisons form a total preorder. *)
Theorem knocked_out_path_pays_nothing
    (average : Z → F → F → F) (p : params) (tmp1 tmp2 tmp3 : F) (i : Z) (w : world F) :
  buffers_fit p w → 0 ≤ i < N_PATHS p →
  fleb (B p) (K p) = true →
  let run := path average p tmp1 tmp2 tmp3 i w in
  ∃ evs, log run.1 = log w ++ evs
    ∧ ((∃ n v, EvAvg i n v ∈ evs ∧ fleb v (B p) = true) →
       d_s run.1 !! Z.to_nat i = Some (fmul tmp2 (of_int 0))).
Proof.
  intros Hfit Hi HBK. simpl. rewrite path_run by done. simpl.
  eexists. split; [reflexivity|].
  intros (n & v & Hin & Hb).
  rewrite list_lookup_insert_eq by (destruct Hfit; lia). f_equal.
  unfold path_events in Hin. apply elem_of_app in Hin as [Hin|Hin].
  2:{ by apply list_elem_of_singleton in Hin. }
  apply list_elem_of_bind in Hin as ([n' st'] & Hev & Hit).
  unfold iter_events in Hev. simpl in Hev.
  apply elem_of_cons in Hev as [Hev|Hev]; [done|].
  apply elem_of_cons in Hev as [Hev|Hev]; [done|].
  apply list_elem_of_singleton in Hev. injection Hev as _ ->.
  apply list_elem_of_lookup in Hit as [k Hk].
  unfold path_value. unfold path_history in *.
  rewrite (breach_is_final _ _ _ _ _ _ _ _ _ _ Hk Hb). simpl.
  unfold payoff_of. rewrite fltb_fleb.
  by rewrite (fleb_trans _ _ _ Hb HBK).
Qed.
End Knockout.

(** ** Reruns, independent paths, and the multi-threaded kernel *)

Section Reruns.
Context {F : Type} `{FloatOps F}.

Lemma stored_stored (value : Z → F) js1 js2 (a : list F) :
  Forall (λ i, 0 ≤ i) js1 → Forall (λ i, 0 ≤ i) js2 →
  (∀ i, i ∈ js1 ↔ i ∈ js2) →
  stored value js1 (stored value js2 a) = stored value js2 a.
Proof.
  intros H1 H2 Hsame. apply list_eq. intros j.
  rewrite (stored_lookup value js1) by done. rewrite length_stored.
  destruct (decide (Z.of_nat j ∈ js1 ∧ (j < length a)%nat)) as [[Hin Hlt]|Hnot]; [|done].
  rewrite stored_lookup by done. rewrite decide_True; [done|].
  split; [by apply Hsame|done].
Qed.

Lemma range_in_range (N : Z) : Forall (λ i, 0 ≤ i < N) (py_range N).
Proof. apply Forall_forall. intros x Hx%elem_of_seqZ. lia. Qed.

Lemma in_range_nonneg (N : Z) js : Forall (λ i, 0 ≤ i < N) js → Forall (λ i, 0 ≤ i) js.
Proof. intros Hjs. eapply Forall_impl; [exact Hjs|]. simpl. lia. Qed.

(** X3.  The notebook hands the buffer the single-threaded run has
    filled to the multi-threaded kernel.  Whatever the order of its
    iterations, that second run ends normally and leaves the output
    buffer exactly as the first run left it, on every numeric carrier;
    the draws are still those of the start. *)
Theorem rerun_leaves_the_output_unchanged (p : params) (order : list Z) (w : world F) :
  1 ≤ N_STEPS p → buffers_fit p w →
  order ≡ₚ py_range (N_PATHS p) →
  let first := cpu_barrier_option p w in
  let second := cpu_multicore_barrier_option order p first.1 in
  second.2 = Ok tt
  ∧ d_s second.1 = d_s first.1
  ∧ d_normals second.1 = d_normals w.
Proof.
  intros Hsteps Hfit Horder. simpl.
  pose proof (range_in_range (N_PATHS p)) as Hrange.
  rewrite cpu_barrier_option_unfold by lia.
  rewrite for_paths_run by done. simpl.
  rewrite cpu_multicore_barrier_option_unfold by lia.
  rewrite for_paths_run.
  - simpl. split_and!; [done| |done].
    apply stored_stored; [|by eapply in_range_nonneg|by intros i; rewrite Horder].
    eapply in_range_nonneg. by rewrite Horder.
  - destruct Hfit as [Hd Hs]. split; simpl; [done|]. by rewrite length_stored.
  - by rewrite Horder.
Qed.

Lemma history_draws_ext average (p : params) tmp1 tmp3 ds1 ds2 i ns st :
  (∀ n, n ∈ ns → array_get ds1 (i + n * N_PATHS p) = array_get ds2 (i + n * N_PATHS p)) →
  history average p tmp1 tmp3 ds1 i ns st = history average p tmp1 tmp3 ds2 i ns st.
Proof.
  revert st. induction ns as [|n ns IH]; intros st Hin; simpl; [done|].
  rewrite <- (Hin n) by left.
  destruct (array_get ds1 (i + n * N_PATHS p)) as [d|]; [|done].
  f_equal. destruct (fleb _ (B p)); [done|]. apply IH.
  intros n' Hn'. apply Hin. by right.
Qed.

(** X4.  Paths are independent.  The payoff the single-threaded kernel
    stores for path [i] depends on the draws of that path only, those
    at [i + n * N_PATHS] for the steps [n]: two runs whose draw buffers
    agree there store the same value in slot [i], whatever the other
    draws and whatever the output buffers held before. *)
Theorem payoff_of_a_path_depends_on_its_own_draws (p : params) (i : Z) (w1 w2 : world F) :
  1 ≤ N_STEPS p → buffers_fit p w1 → buffers_fit p w2 → 0 ≤ i < N_PATHS p →
  (∀ n, 0 ≤ n < N_STEPS p →
        d_normals w1 !! Z.to_nat (i + n * N_PATHS p)
        = d_normals w2 !! Z.to_nat (i + n * N_PATHS p)) →
  d_s (cpu_barrier_option p w1).1 !! Z.to_nat i
  = d_s (cpu_barrier_option p w2).1 !! Z.to_nat i.
Proof.
  intros Hsteps Hfit1 Hfit2 Hi Hsame.
  pose proof (range_in_range (N_PATHS p)) as Hrange.
  rewrite !cpu_barrier_option_unfold by lia.
  rewrite !for_paths_run by done. simpl.
  rewrite !stored_lookup by (by eapply in_range_nonneg).
  rewrite !decide_True.
  2,3: split; [rewrite Z2Nat.id by lia; apply elem_of_seqZ; lia|].
  2: destruct Hfit2; lia. 2: destruct Hfit1; lia.
  f_equal. rewrite Z2Nat.id by lia. unfold path_value, path_history.
  rewrite (history_draws_ext _ _ _ _ (d_normals w1) (d_normals w2)); [done|].
  intros n Hn%elem_of_seqZ.
  destruct (array_get_in_range (d_normals w1) (i + n * N_PATHS p)) as [-> _].
  { apply draw_index_in_range; [done|done|lia]. }
  destruct (array_get_in_range (d_normals w2) (i + n * N_PATHS p)) as [-> _].
  { apply draw_index_in_range; [done|done|lia]. }
  apply Hsame. lia.
Qed.

(** X5.  The multi-threaded kernel, under any order of its iterations,
    with at least one step and buffers that hold every draw and slot:
    the run ends normally, every access it logs lies within its buffer,
    and its log is a rearrangement of the log of the single-threaded
    run: the same reads, updates and stores take place, path by path,
    in another order of the paths. *)
Theorem multicore_run_reorders_the_serial_run (p : params) (order : list Z) (w : world F) :
  1 ≤ N_STEPS p → buffers_fit p w →
  order ≡ₚ py_range (N_PATHS p) →
  let multi := cpu_multicore_barrier_option order p w in
  let serial := cpu_barrier_option p w in
  multi.2 = Ok tt
  ∧ ∃ evs evs',
      log multi.1 = log w ++ evs ∧ log serial.1 = log w ++ evs'
      ∧ evs ≡ₚ evs'
      ∧ Forall (access_in_bounds w) evs.
Proof.
  intros Hsteps Hfit Horder. simpl.
  pose proof (range_in_range (N_PATHS p)) as Hrange.
  rewrite cpu_barrier_option_unfold, cpu_multicore_barrier_option_unfold by lia.
  rewrite (for_paths_run _ _ _ _ _ order); [|done|by rewrite Horder].
  rewrite for_paths_run by done. simpl.
  split; [done|]. eexists _, _. split_and!; [reflexivity|reflexivity| |].
  - by rewrite Horder.
  - apply Forall_bind. rewrite Horder. eapply Forall_impl; [exact Hrange|].
    intros i Hi. simpl. by apply path_events_in_bounds.
Qed.
End Reruns.

(** ** The strided loops on any grid *)

Section Grids.
Context {F : Type} `{FloatOps F}.

Lemma length_bind_const {A C} (f : A → list C) (l : list A) (m : nat) :
  (∀ x, length (f x) = m) → length (l ≫= f) = (length l * m)%nat.
Proof.
  intros Hf. induction l as [|x l IH]; [done|].
  rewrite bind_cons, length_app, Hf, IH. simpl. lia.
Qed.

Lemma length_launch (gridDim blockDim N : Z) :
  length (launch gridDim blockDim N) = (Z.to_nat gridDim * Z.to_nat blockDim)%nat.
Proof.
  unfold launch. rewrite (length_bind_const _ _ (Z.to_nat blockDim)).
  - by rewrite length_seqZ.
  - intros bx. rewrite (length_bind_const _ _ 1%nat); [|done].
    rewrite length_seqZ. lia.
Qed.

(** X6.  A launch of [gridDim] blocks of [blockDim] threads, both at
    least one, creates [gridDim * blockDim] threads whose strided loops
    split [range(N_PATHS)] among them: every path index is visited by
    exactly one thread, once, and each thread visits the floor or the
    ceiling of [N_PATHS / (gridDim * blockDim)] paths, also when there
    are fewer threads than paths. *)
Theorem strided_loops_split_the_paths_on_any_grid (gridDim blockDim n_paths : Z) :
  1 ≤ gridDim → 1 ≤ blockDim → 0 ≤ n_paths →
  let units := gridDim * blockDim in
  let pool := launch gridDim blockDim n_paths in
  Z.of_nat (length pool) = units
  ∧ mjoin pool ≡ₚ py_range n_paths
  ∧ Forall (λ todo, Z.of_nat (length todo) = n_paths `div` units
                    ∨ Z.of_nat (length todo) = (n_paths + units - 1) `div` units) pool.
Proof.
  intros Hg Hb Hn. simpl. split_and!.
  - rewrite length_launch. nia.
  - by apply strided_cover.
  - apply Forall_forall. intros todo (bx & tx & Hbx & Htx & ->)%elem_of_launch.
    apply stride_count; [done|]. by apply thread_index_bounds.
Qed.

(** X7.  At every point of a device run, on a non-empty grid and with
    buffers that hold every draw and slot: whatever the schedule, and
    whether or not it lets the threads finish, the run has raised
    nothing, the slots stored so far together with the indices the
    threads have yet to visit are the path indices [range(N_PATHS)],
    each once, and the slot of a path yet to be visited still holds
    what it held before the launch. *)
Theorem device_run_conserves_the_paths
    (p : params) (gridDim blockDim : Z) (sched : list nat) (w : world F) :
  1 ≤ gridDim → 1 ≤ blockDim → buffers_fit p w →
  let run := numba_gpu_barrier_option gridDim blockDim sched p w in
  ∃ pool' evs,
    run.2 = Ok pool'
    ∧ log run.1 = log w ++ evs
    ∧ stored_slots evs ++ mjoin pool' ≡ₚ py_range (N_PATHS p)
    ∧ ∀ i, i ∈ mjoin pool' → d_s run.1 !! Z.to_nat i = d_s w !! Z.to_nat i.
Proof.
  intros Hg Hb Hfit. simpl. unfold numba_gpu_barrier_option.
  rewrite gpu_run_drain. unfold bind, gpu_path.
  rewrite for_paths_run; [|done|apply drain_launch_in_range]. simpl.
  eexists _, _. split_and!; [reflexivity|reflexivity| |].
  - rewrite stored_slots_paths, drain_perm. by apply strided_cover.
  - intros i Hi.
    set (pool := launch gridDim blockDim (N_PATHS p)) in *.
    assert (NoDup ((drain sched pool).1 ++ mjoin (drain sched pool).2)) as Hnd.
    { rewrite drain_perm. unfold pool. rewrite strided_cover by done. apply NoDup_seqZ. }
    apply NoDup_app in Hnd as (_ & Hdisj & _).
    assert (0 ≤ i < N_PATHS p) as Hrange.
    { apply (launch_members gridDim blockDim). fold pool.
      rewrite <- (drain_perm sched pool). apply elem_of_app. by right. }
    rewrite stored_lookup.
    2:{ eapply Forall_impl; [apply drain_launch_in_range|]. simpl. lia. }
    rewrite decide_False; [done|]. rewrite Z2Nat.id by lia.
    intros [Hin _]. by apply (Hdisj i).
Qed.

Lemma py_range3_single (ii N U : Z) :
  0 ≤ ii → N ≤ U → 0 < U →
  py_range3 ii N U = if ii <? N then [ii] else [].
Proof.
  intros Hii HN HU. unfold py_range3.
  destruct (0 <? U) eqn:E0; [|lia]. destruct (ii <? N) eqn:E1; simpl; [|done].
  rewrite Z.div_small by lia. simpl. f_equal. lia.
Qed.

(** X8.  The notebook's [number_of_blocks] is the least number of
    blocks of [number_of_threads] threads that gives every path a
    thread, and under that launch the strided loop of a thread runs at
    most once: the thread of global index [ii] visits path [ii] when
    [ii < N_PATHS] and no path otherwise. *)
Theorem notebook_launch_gives_a_thread_per_path (n_paths number_of_threads : Z) :
  1 ≤ n_paths → 1 ≤ number_of_threads →
  let blocks := number_of_blocks n_paths number_of_threads in
  (blocks - 1) * number_of_threads < n_paths ≤ blocks * number_of_threads
  ∧ ∀ bx tx, 0 ≤ bx < blocks → 0 ≤ tx < number_of_threads →
      let ii := tx + bx * number_of_threads in
      thread_range blocks number_of_threads n_paths bx tx
      = if ii <? n_paths then [ii] else [].
Proof.
  intros Hn Ht. simpl.
  destruct (number_of_blocks_bounds _ _ Hn Ht) as [Hb Hu]. split.
  - split; [|done]. unfold number_of_blocks.
    pose proof (Z.div_mod (n_paths - 1) number_of_threads ltac:(lia)).
    pose proof (Z.mod_pos_bound (n_paths - 1) number_of_threads ltac:(lia)). nia.
  - intros bx tx Hbx Htx. unfold thread_range.
    apply py_range3_single; [nia|done|nia].
Qed.
End Grids.

(** ** The expected payoff *)

Section Aggregate.
Context {F : Type} `{ExactField F}.

Add Ring aggregate_ring : exact_ring.

(** [output.mean()]: the sum of the elements over their number. *)
Definition mean (a : list F) : F := fdiv (fsum a) (of_int (Z.of_nat (length a))).

Lemma fsum_replicate (n : nat) (c : F) :
  fsum (replicate n c) = fmul (of_int (Z.of_nat n)) c.
Proof.
  induction n as [|n IH].
  - unfold fsum. simpl. rewrite of_int_0. ring.
  - rewrite replicate_S_end, fsum_snoc, IH.
    replace (Z.of_nat (S n)) with (Z.of_nat n + 1) by lia.
    rewrite of_int_succ. ring.
Qed.

Lemma mean_replicate (n : nat) (c : F) : (0 < n)%nat → mean (replicate n c) = c.
Proof.
  intros Hn. unfold mean. rewrite fsum_replicate, length_replicate.
  assert (Hd : of_int (Z.of_nat n) ≠ f0) by (apply of_int_nonzero; lia).
  rewrite fdiv_recip.
  transitivity (fmul c (fmul (fdiv f1 (of_int (Z.of_nat n))) (of_int (Z.of_nat n)))).
  { ring. }
  rewrite (fdiv_mul _ _ Hd). ring.
Qed.

(** X11.  In a still market the notebook's expected payoff is the
    closed form.  With an output buffer of one slot per path, at least
    one path and one step, a drift of zero, every draw equal to zero,
    and a spot above the barrier, the mean of the buffer that the
    single-threaded kernel fills is [max(S0 - K, 0) * exp(-r*T)]. *)
Theorem expected_payoff_of_a_still_market (p : params) (w : world F) :
  1 ≤ N_STEPS p → 1 ≤ N_PATHS p →
  N_PATHS p * N_STEPS p ≤ Z.of_nat (length (d_normals w)) →
  Z.of_nat (length (d_s w)) = N_PATHS p →
  mu p = f0 → Forall (λ d, d = f0) (d_normals w) →
  fleb (S0 p) (B p) = false →
  mean (d_s (cpu_barrier_option p w).1)
  = fmul (fmax (fsub (S0 p) (K p)) f0) (fexp (fmul (fneg (r p)) (T p))).
Proof.
  intros Hsteps Hpaths Hdraws Hslots Hmu Hzero Hb.
  assert (Hfit : buffers_fit p w) by (split; lia).
  set (c := fmul (fmax (fsub (S0 p) (K p)) f0) (fexp (fmul (fneg (r p)) (T p)))).
  assert (d_s (cpu_barrier_option p w).1 = replicate (length (d_s w)) c) as ->.
  { rewrite cpu_barrier_option_unfold by lia.
    rewrite for_paths_run; [|done|apply range_in_range]. simpl.
    apply list_eq. intros j. rewrite stored_lookup.
    2:{ eapply in_range_nonneg, range_in_range. }
    destruct (decide (j < length (d_s w))%nat) as [Hj|Hj].
    - rewrite decide_True by (split; [apply elem_of_seqZ; lia|done]).
      rewrite lookup_replicate_2 by done. f_equal.
      unfold path_value. rewrite (tmp1_of_zero_drift p Hmu).
      destruct (zero_draw_path_history p (tmp3_of p) (d_normals w) (Z.of_nat j))
        as (Hall & Hne & _); [done| |].
      { intros n Hn. apply zero_draws_in_range; [done|done|lia|done]. }
      rewrite (final_of_constant _ (Locals (S0 p) (S0 p))) by done. simpl.
      rewrite payoff_of_max. unfold c, tmp2_of. ring.
    - rewrite decide_False by (intros [_ ?]; lia).
      rewrite lookup_ge_None_2 by lia. symmetry.
      apply lookup_replicate_None. lia. }
  apply mean_replicate. lia.
Qed.
End Aggregate.

(** * The PySpark tutorial: the functions handed to the workers

    The notebook of [pyspark_samples] defines three functions of its
    own and hands them to Spark.  They are embedded as functions on
    lists; Python integers are [Z].  The pauses ([time.sleep]) have no
    effect on the values and are left out. *)

(** [add_func(x, y)] *)
Definition add_func (x y : Z) : Z := x + y.

(** [spark_run(input_list)]: [[add_func(i[0], i[1]) for i in input_list]] *)
Definition spark_run (input_list : list (Z * Z)) : list Z :=
  (λ i, add_func i.1 i.2) <$> input_list.

(** [[[(p[0]+i, p[1]+i) for p in list1] for i in range(workers)]] *)
Definition partitions (list1 : list (Z * Z)) (workers : Z) : list (list (Z * Z)) :=
  (λ i, (λ p, (p.1 + i, p.2 + i)) <$> list1) <$> py_range workers.

(** [rdd.map(lambda x: spark_run(x)).collect()] on the RDD of the
    partitions: the image of each element, in the order of the
    elements. *)
Definition rdd_out (list1 : list (Z * Z)) (workers : Z) : list (list Z) :=
  spark_run <$> partitions list1 workers.

(** [sum_partition(iterator)]: a generator that yields [sum(iterator)]
    and ends. *)
Definition sum_partition (iterator : list Z) : list Z := [foldl Z.add 0 iterator].

(** [rdd.mapPartitions(sum_partition).collect()] on an RDD whose
    partitions are [parts]: what the function yields for each
    partition, partition after partition. *)
Definition sum_rdd (parts : list (list Z)) : list Z := parts ≫= sum_partition.

Example rdd_out_of_the_notebook :
  rdd_out [(1, 1); (2, 1); (3, 2); (4, 10)] 8
  = [[2; 3; 5; 14]; [4; 5; 7; 16]; [6; 7; 9; 18]; [8; 9; 11; 20];
     [10; 11; 13; 22]; [12; 13; 15; 24]; [14; 15; 17; 26]; [16; 17; 19; 28]].
Proof. reflexivity. Qed.

Example sum_rdd_of_the_notebook : sum_rdd [[1; 2]; [3; 4]] = [3; 7].
Proof. reflexivity. Qed.

(** X12.  The lists the workers return: there is one per worker, in the
    order of the workers, and the list of worker [i] is the list of
    sums of the base pairs with [2 * i] added to every sum, so it has
    one element per base pair. *)
Theorem workers_return_shifted_sums (list1 : list (Z * Z)) (workers : Z) :
  rdd_out list1 workers
  = (λ i, (λ s, s + 2 * i) <$> spark_run list1) <$> py_range workers.
Proof.
  unfold rdd_out, partitions, spark_run. rewrite <- list_fmap_compose.
  apply list_fmap_ext. intros _ i _. simpl.
  rewrite <- !list_fmap_compose. apply list_fmap_ext. intros _ [x y] _.
  simpl. unfold add_func. simpl. lia.
Qed.

Lemma foldl_add_shift (l : list Z) (a : Z) : foldl Z.add a l = a + foldl Z.add 0 l.
Proof.
  revert a. induction l as [|x l IH]; intros a; simpl; [lia|].
  rewrite (IH (a + x)), (IH (0 + x)). lia.
Qed.

(** X13.  Summing by partition loses nothing: [sum_partition] yields
    one number per partition, an empty partition included, and the sum
    of these numbers is the sum of all the elements, however the
    elements are split into partitions. *)
Theorem partition_sums_add_up (parts : list (list Z)) :
  length (sum_rdd parts) = length parts
  ∧ foldl Z.add 0 (sum_rdd parts) = foldl Z.add 0 (mjoin parts).
Proof.
  unfold sum_rdd. split.
  - rewrite (length_bind_const _ _ 1%nat); [lia|done].
  - induction parts as [|part parts IH]; [done|].
    rewrite bind_cons. simpl. rewrite foldl_app.
    rewrite (foldl_add_shift _ (0 + _)), (foldl_add_shift _ (foldl _ _ part)), IH. lia.
Qed.

(** ** The function applied to each group of diamonds *)

From stdpp Require Import strings.

Local Open Scope Z_scope.

Module Diamonds.

(** A row of the data frame, with the columns the function reads. *)
Record row (F : Type) := Row {
  clarity : string;
  x : F;
  y : F;
  z : F
}.
Arguments Row {F} clarity x y z.
Arguments clarity {F} r.
Arguments x {F} r.
Arguments y {F} r.
Arguments z {F} r.

Section Dims.
Context {F : Type} `{ExactField F}.

Add Ring diamonds_ring : exact_ring.

(** [mean_diamond_dims(single_part_df)].  The clarity is read from the
    first row, [single_part_df['clarity'].values[0]], which raises on a
    frame without rows; the result is the one row of the frame the
    function returns. *)
Definition mean_diamond_dims (single_part_df : list (row F))
  : result (string * F) :=
  match single_part_df with
  | [] => Raise IndexError
  | first :: _ =>
      let clarity := clarity first in
      let mean_xyz :=
        (λ r, fdiv (fadd (fadd (x r) (y r)) (z r)) (of_int 3)) <$> single_part_df in
      let mean_all := mean mean_xyz in
      Ok (clarity, mean_all)
  end.

Lemma fsum_from (a : F) (l : list F) : foldl fadd a l = fadd a (fsum l).
Proof.
  unfold fsum. revert a. induction l as [|b l IH]; intros a; simpl; [ring|].
  rewrite (IH (fadd a b)), (IH (fadd f0 b)). ring.
Qed.

Lemma fsum_cons (a : F) (l : list F) : fsum (a :: l) = fadd a (fsum l).
Proof. unfold fsum at 1. simpl. rewrite fsum_from. ring. Qed.

Lemma three_nonzero : of_int 3 ≠ (f0 : F).
Proof. apply of_int_nonzero. lia. Qed.

Lemma sum_of_row_means (df : list (row F)) :
  fmul (of_int 3) (fsum ((λ r, fdiv (fadd (fadd (x r) (y r)) (z r)) (of_int 3)) <$> df))
  = fadd (fadd (fsum (x <$> df)) (fsum (y <$> df))) (fsum (z <$> df)).
Proof.
  induction df as [|r df IH].
  - unfold fsum. simpl. ring.
  - rewrite !fmap_cons, !fsum_cons.
    transitivity (fadd (fmul (fdiv (fadd (fadd (x r) (y r)) (z r)) (of_int 3)) (of_int 3))
                       (fmul (of_int 3)
                          (fsum ((λ r, fdiv (fadd (fadd (x r) (y r)) (z r)) (of_int 3))
                                   <$> df)))).
    { ring. }
    rewrite (fdiv_mul _ _ three_nonzero), IH. ring.
Qed.

(** X14.  On a group of diamonds of one clarity, [mean_diamond_dims]
    returns that clarity with the mean of the row means, and in exact
    arithmetic this is the mean of all the dimensions of the group:
    multiplied by three times the number of rows it is the sum of the
    [x], [y] and [z] columns.  On a frame without rows the function
    raises [IndexError]. *)
Theorem mean_of_row_means_is_the_mean_of_all_dims (c : string) (df : list (row F)) :
  mean_diamond_dims [] = Raise IndexError
  ∧ (df ≠ [] → Forall (λ r, clarity r = c) df →
     ∃ m, mean_diamond_dims df = Ok (c, m)
          ∧ fmul (of_int 3) (fmul (of_int (Z.of_nat (length df))) m)
            = fadd (fadd (fsum (x <$> df)) (fsum (y <$> df))) (fsum (z <$> df))).
Proof.
  split; [done|]. intros Hne Hc.
  destruct df as [|first df']; [done|].
  set (df := first :: df') in *.
  exists (mean ((λ r, fdiv (fadd (fadd (x r) (y r)) (z r)) (of_int 3)) <$> df)).
  split.
  - unfold df in *. apply Forall_cons in Hc as [<- _]. reflexivity.
  - unfold mean. rewrite length_fmap.
    assert (Hd : of_int (Z.of_nat (length df)) ≠ f0).
    { apply of_int_nonzero. unfold df. simpl. lia. }
    set (S := fsum _) at 1.
    transitivity (fmul (of_int 3)
                    (fmul (fdiv S (of_int (Z.of_nat (length df))))
                          (of_int (Z.of_nat (length df))))).
    { ring. }
    rewrite (fdiv_mul _ _ Hd). apply sum_of_row_means.
Qed.
End Dims.
End Diamonds.

(** ** The device output does not depend on the launch *)

Section Launches.
Context {F : Type} `{FloatOps F}.

(** X15.  The output of the device kernel depends neither on the grid
    nor on the schedule.  On every numeric carrier, rounding included,
    two runs from the same world under two non-empty grids and two
    schedules end normally, and if both let every thread finish they
    leave the same output buffer. *)
Theorem device_output_is_independent_of_the_launch
    (p : params) (gridDim1 blockDim1 gridDim2 blockDim2 : Z)
    (sched1 sched2 : list nat) (w : world F) :
  buffers_fit p w →
  1 ≤ gridDim1 → 1 ≤ blockDim1 → 1 ≤ gridDim2 → 1 ≤ blockDim2 →
  let run1 := numba_gpu_barrier_option gridDim1 blockDim1 sched1 p w in
  let run2 := numba_gpu_barrier_option gridDim2 blockDim2 sched2 p w in
  ∃ pool1 pool2,
    run1.2 = Ok pool1 ∧ run2.2 = Ok pool2
    ∧ (finished pool1 → finished pool2 → d_s run1.1 = d_s run2.1).
Proof.
  intros Hfit Hg1 Hb1 Hg2 Hb2. simpl. unfold numba_gpu_barrier_option.
  rewrite !gpu_run_drain. unfold bind, gpu_path.
  rewrite !for_paths_run; try done; try apply drain_launch_in_range.
  simpl. eexists _, _. split_and!; [reflexivity|reflexivity|].
  intros Hfin1 Hfin2.
  apply stored_same_slots.
  - eapply in_range_nonneg, drain_launch_in_range.
  - eapply in_range_nonneg, drain_launch_in_range.
  - intros i. rewrite (drain_finished _ _ Hfin1), (drain_finished _ _ Hfin2).
    by rewrite !strided_cover.
Qed.
End Launches.

(** ** The further results at concrete inputs *)

Lemma running_average_is_the_mean_of_the_prices_witness :
  let p := notebook_params 2 3 in
  averages_are_means sample_world
    (path cpu_average p (tmp1_of p) (tmp2_of p) (tmp3_of p) 1)
  ∧ averages_are_means sample_world (gpu_path p 1).
Proof.
  apply (running_average_is_the_mean_of_the_prices (notebook_params 2 3) 1 sample_world).
  - unfold buffers_fit. simpl. lia.
  - simpl. lia.
Defined.

Lemma knocked_out_path_pays_nothing_witness :
  let p := low_spot_params in
  d_s (path gpu_average p (tmp1_of p) (tmp2_of p) (tmp3_of p) 0 falling_world).1
    !! Z.to_nat 0
  = Some (fmul (tmp2_of p) (of_int 0)).
Proof.
  destruct (knocked_out_path_pays_nothing gpu_average low_spot_params
              (tmp1_of low_spot_params) (tmp2_of low_spot_params)
              (tmp3_of low_spot_params) 0 falling_world) as (evs & Hlog & Hpay).
  - unfold buffers_fit. simpl. lia.
  - simpl. lia.
  - vm_compute. reflexivity.
  - apply Hpay. vm_compute in Hlog. rewrite <- Hlog.
    eexists _, _. split.
    + do 2 apply list_elem_of_further. apply list_elem_of_here.
    + vm_compute. reflexivity.
Defined.

Lemma rerun_leaves_the_output_unchanged_witness :
  let p := notebook_params 2 3 in
  let first := cpu_barrier_option p sample_world in
  let second := cpu_multicore_barrier_option [1; 0; 2] p first.1 in
  second.2 = Ok tt
  ∧ d_s second.1 = d_s first.1
  ∧ d_normals second.1 = d_normals sample_world.
Proof.
  apply (rerun_leaves_the_output_unchanged (notebook_params 2 3) [1; 0; 2] sample_world).
  - simpl. lia.
  - unfold buffers_fit. simpl. lia.
  - change (py_range (N_PATHS (notebook_params 2 3))) with [0; 1; 2]. apply perm_swap.
Defined.

(** Another world for the parameters of [sample_world]: the draws of
    path 1, at indices 1 and 4, are the same, the other draws and the
    output buffer differ. *)
Definition other_world : world Qc :=
  World [ratio 9 1; ratio 9 1; ratio 9 1; ratio 9 1]
        [ratio 0 1; ratio (-1) 1; ratio 5 1; ratio 1 1; ratio (-2) 1; ratio 3 1; ratio 8 1] [].

Lemma payoff_of_a_path_depends_on_its_own_draws_witness :
  d_s (cpu_barrier_option (notebook_params 2 3) sample_world).1 !! Z.to_nat 1
  = d_s (cpu_barrier_option (notebook_params 2 3) other_world).1 !! Z.to_nat 1.
Proof.
  apply (payoff_of_a_path_depends_on_its_own_draws (notebook_params 2 3) 1
           sample_world other_world).
  - simpl. lia.
  - unfold buffers_fit. simpl. lia.
  - unfold buffers_fit. simpl. lia.
  - simpl. lia.
  - intros n Hn. simpl in Hn.
    assert (n = 0 ∨ n = 1) as [-> | ->] by lia; reflexivity.
Defined.

Lemma multicore_run_reorders_the_serial_run_witness :
  let p := notebook_params 2 3 in
  let multi := cpu_multicore_barrier_option [1; 0; 2] p sample_world in
  let serial := cpu_barrier_option p sample_world in
  multi.2 = Ok tt
  ∧ ∃ evs evs',
      log multi.1 = log sample_world ++ evs ∧ log serial.1 = log sample_world ++ evs'
      ∧ evs ≡ₚ evs'
      ∧ Forall (access_in_bounds sample_world) evs.
Proof.
  apply (multicore_run_reorders_the_serial_run (notebook_params 2 3) [1; 0; 2] sample_world).
  - simpl. lia.
  - unfold buffers_fit. simpl. lia.
  - change (py_range (N_PATHS (notebook_params 2 3))) with [0; 1; 2]. apply perm_swap.
Defined.

Lemma strided_loops_split_the_paths_on_any_grid_witness :
  let pool := launch 1 2 5 in
  Z.of_nat (length pool) = 1 * 2
  ∧ mjoin pool ≡ₚ py_range 5
  ∧ Forall (λ todo, Z.of_nat (length todo) = 5 `div` (1 * 2)
                    ∨ Z.of_nat (length todo) = (5 + 1 * 2 - 1) `div` (1 * 2)) pool.
Proof. apply (strided_loops_split_the_paths_on_any_grid 1 2 5); lia. Defined.

Lemma device_run_conserves_the_paths_witness :
  let p := notebook_params 2 3 in
  let run := numba_gpu_barrier_option 1 2 [0]%nat p sample_world in
  ∃ pool' evs,
    run.2 = Ok pool'
    ∧ log run.1 = log sample_world ++ evs
    ∧ stored_slots evs ++ mjoin pool' ≡ₚ py_range (N_PATHS p)
    ∧ ∀ i, i ∈ mjoin pool' → d_s run.1 !! Z.to_nat i = d_s sample_world !! Z.to_nat i.
Proof.
  apply (device_run_conserves_the_paths (notebook_params 2 3) 1 2 [0]%nat sample_world).
  - lia.
  - lia.
  - unfold buffers_fit. simpl. lia.
Defined.

Lemma notebook_launch_gives_a_thread_per_path_witness :
  let blocks := number_of_blocks 7 3 in
  (blocks - 1) * 3 < 7 ≤ blocks * 3
  ∧ ∀ bx tx, 0 ≤ bx < blocks → 0 ≤ tx < 3 →
      let ii := tx + bx * 3 in
      thread_range blocks 3 7 bx tx = if ii <? 7 then [ii] else [].
Proof. apply (notebook_launch_gives_a_thread_per_path 7 3); lia. Defined.

Lemma expected_payoff_of_a_still_market_witness :
  let p := driftless_params 3 2 in
  mean (d_s (cpu_barrier_option p still_world).1)
  = fmul (fmax (fsub (S0 p) (K p)) f0) (fexp (fmul (fneg (r p)) (T p))).
Proof.
  apply (expected_payoff_of_a_still_market (driftless_params 3 2) still_world).
  - simpl. lia.
  - simpl. lia.
  - simpl. lia.
  - reflexivity.
  - reflexivity.
  - simpl. repeat constructor.
  - vm_compute. reflexivity.
Defined.

Lemma device_output_is_independent_of_the_launch_witness :
  let p := notebook_params 2 3 in
  d_s (numba_gpu_barrier_option 1 2 [1; 0; 0]%nat p sample_world).1
  = d_s (numba_gpu_barrier_option 3 1 [2; 0; 1]%nat p sample_world).1.
Proof.
  destruct (device_output_is_independent_of_the_launch (notebook_params 2 3) 1 2 3 1
              [1; 0; 0]%nat [2; 0; 1]%nat sample_world)
    as (pool1 & pool2 & Hok1 & Hok2 & Hsame).
  - unfold buffers_fit. simpl. lia.
  - lia.
  - lia.
  - lia.
  - lia.
  - apply Hsame.
    + vm_compute in Hok1. injection Hok1 as <-. repeat constructor.
    + vm_compute in Hok2. injection Hok2 as <-. repeat constructor.
Defined.

(** Two diamonds of clarity SI2, the first rows of the data set. *)
Definition two_diamonds : list (Diamonds.row Qc) :=
  [Diamonds.Row "SI2" (ratio 395 100) (ratio 398 100) (ratio 243 100);
   Diamonds.Row "SI2" (ratio 434 100) (ratio 435 100) (ratio 275 100)].

Lemma mean_of_row_means_is_the_mean_of_all_dims_witness :
  ∃ m, Diamonds.mean_diamond_dims two_diamonds = Ok ("SI2"%string, m)
       ∧ fmul (of_int 3) (fmul (of_int (Z.of_nat (length two_diamonds))) m)
         = fadd (fadd (fsum (Diamonds.x <$> two_diamonds))
                      (fsum (Diamonds.y <$> two_diamonds)))
                (fsum (Diamonds.z <$> two_diamonds)).
Proof.
  apply (proj2 (Diamonds.mean_of_row_means_is_the_mean_of_all_dims "SI2" two_diamonds)).
  - discriminate.
  - repeat constructor.
Defined.
